(** * Organizations: membership, signatures and vault access (packages/core/src/org.ts)

    A shallow embedding of the [Org] class: the member and group registries,
    the access resolver ([getAccessors], [getVaultsForMember], [canRead],
    [canWrite]), the signature protocol ([sign], [verify], [verifyAll]) and the
    key lifecycle ([generateKeys], [rotateKeys], [lock]).

    JavaScript objects that are mutated in place ([OrgMember]) live in a heap
    and are named by references, so [Set<OrgMember>] compares by identity and
    [member.signature = ...] is visible through every alias.  The
    cryptographic provider and the inherited [SharedContainer] are
    interfaces of the source and are parameters here. *)

From Stdlib Require Import List Bool NArith PeanoNat Lia.
From Stdlib.Strings Require Import String Ascii Byte.
Import ListNotations.
Local Open Scope list_scope.

(** ** Plain values *)

Definition bytes := list byte.
Definition AccountID := string.
Definition VaultID := string.
Definition InviteID := string.
Definition OrgID := string.

(** A reference to a heap-allocated [OrgMember] object. *)
Definition Ref := nat.

(** [enum OrgRole { Owner, Admin, Member, Suspended }] *)
Inductive OrgRole := Owner | Admin | Member | Suspended.

(** The number a TypeScript numeric enum member stands for. *)
Definition OrgRole_value (r : OrgRole) : N :=
  match r with Owner => 0 | Admin => 1 | Member => 2 | Suspended => 3 end.

Definition OrgRole_eqb (a b : OrgRole) : bool :=
  N.eqb (OrgRole_value a) (OrgRole_value b).

Definition OrgRole_leb (a b : OrgRole) : bool :=
  N.leb (OrgRole_value a) (OrgRole_value b).

(** [enum OrgType { Basic, Team, Business }] *)
Inductive OrgType := Basic | Team | Business.

(** Entries of the [vaults] arrays of members and groups:
    [{ id: VaultID; readonly: boolean }]. *)
Module VaultAccess.
Record t := mk { id : VaultID; readonly : bool }.
End VaultAccess.

(** Entries of [Group.members]: [{ id: AccountID }]. *)
Module MemberRef.
Record t := mk { id : AccountID }.
End MemberRef.

(** [class OrgMember].  [signature] and [orgSignature] are declared with [!]
    and are [undefined] until assigned: [None] is [undefined]. *)
Module OrgMember.
Record t := mk {
  id : AccountID;
  name : string;
  email : string;
  publicKey : bytes;
  signature : option bytes;
  orgSignature : option bytes;
  vaults : list VaultAccess.t;
  role : OrgRole
}.

Definition with_signature (s : option bytes) (m : t) : t :=
  mk (id m) (name m) (email m) (publicKey m) s (orgSignature m) (vaults m) (role m).
End OrgMember.

(** [class Group] *)
Module Group.
Record t := mk {
  name : string;
  members : list MemberRef.t;
  vaults : list VaultAccess.t
}.
End Group.

(** Modelled from the spec: invite.ts is not part of the sources.  An invite
    is "held by reference, fetch/remove by id; receives lock() propagation":
    it has an id, holds secret material while unlocked, and its [lock]
    method discards that material. *)
Module Invite.
Record t := mk { id : InviteID; secret : option bytes }.

Definition lock (i : t) : t := mk (id i) None.

Definition locked (i : t) : bool :=
  match secret i with None => true | Some _ => false end.
End Invite.

(** [RSASigningParams], [RSAKeyParams], [AESKeyParams] come from crypto.ts;
    the methods here only hand them to the provider. *)
Inductive RSASigningParams := mkRSASigningParams (raw : string).
Inductive RSAKeyParams := mkRSAKeyParams.
Inductive AESKeyParams := mkAESKeyParams.

(** The fields of [class Org] itself.  The inherited [SharedContainer] state
    is kept next to it (see [State]); [quota] and [billing] are opaque
    records that no method below reads, and are left out.  [privateKey] and
    [invitesKey] are removed with [delete] on [lock], so they are optional;
    [members] is an array of object references. *)
Module Org.
Record t := mk {
  id : OrgID;
  type : OrgType;
  owner : AccountID;
  name : string;
  publicKey : bytes;
  privateKey : option bytes;
  invitesKey : option bytes;
  signingParams : RSASigningParams;
  members : list Ref;
  groups : list Group.t;
  vaults : list (VaultID * string);
  invites : list Invite.t;
  revision : string
}.

Definition with_publicKey (k : bytes) (o : t) : t :=
  mk (id o) (type o) (owner o) (name o) k (privateKey o) (invitesKey o)
     (signingParams o) (members o) (groups o) (vaults o) (invites o) (revision o).

Definition with_privateKey (k : option bytes) (o : t) : t :=
  mk (id o) (type o) (owner o) (name o) (publicKey o) k (invitesKey o)
     (signingParams o) (members o) (groups o) (vaults o) (invites o) (revision o).

Definition with_invitesKey (k : option bytes) (o : t) : t :=
  mk (id o) (type o) (owner o) (name o) (publicKey o) (privateKey o) k
     (signingParams o) (members o) (groups o) (vaults o) (invites o) (revision o).

Definition with_invites (l : list Invite.t) (o : t) : t :=
  mk (id o) (type o) (owner o) (name o) (publicKey o) (privateKey o) (invitesKey o)
     (signingParams o) (members o) (groups o) (vaults o) l (revision o).
End Org.

(** The object heap: every reference names an [OrgMember]. *)
Definition Heap := Ref -> OrgMember.t.

Definition heap_set (h : Heap) (r : Ref) (m : OrgMember.t) : Heap :=
  fun r' => if Nat.eqb r' r then m else h r'.

(** ** The pieces of the JavaScript runtime the methods use *)

Module JS.
(** [Array.prototype.some] *)
Definition some {A} (p : A -> bool) (l : list A) : bool := existsb p l.

(** A [Set] keeps its elements in insertion order; [add] of an element
    that is already there (SameValueZero) leaves the set as it is. *)
Definition Set_add {A} (eqb : A -> A -> bool) (x : A) (s : list A) : list A :=
  if existsb (eqb x) s then s else s ++ [x].

(** [new Set(iterable)] adds the elements one after the other. *)
Definition Set_of {A} (eqb : A -> A -> bool) (l : list A) : list A :=
  fold_left (fun s x => Set_add eqb x s) l [].

(** The value of [a && b] when [a] is an object or [undefined] and [b] a
    boolean: [undefined] or the boolean. [None] is [undefined]. *)
Definition truthy (v : option bool) : bool :=
  match v with Some true => true | _ => false end.

(** [x === y] on object references or [undefined]. *)
Definition same_object (x y : option Ref) : bool :=
  match x, y with
  | Some a, Some b => Nat.eqb a b
  | None, None => true
  | _, _ => false
  end.
End JS.

(** ** Exceptions *)

(** What a method that may [throw] produces. *)
Inductive ErrorCode := VERIFICATION_ERROR.

Inductive Exn :=
| ThrowString (message : string)                  (* [throw "..."] *)
| ThrowErr (code : ErrorCode) (message : string)  (* [throw new Err(code, message)] *)
| ProviderFailure (info : string).                (* a rejection of the provider or container *)

Inductive Result (A : Type) :=
| Ok (a : A)
| Throw (e : Exn).
Arguments Ok {A} a.
Arguments Throw {A} e.

(** ** Access resolver *)

Section Resolver.
Variable h : Heap.
Variable o : Org.t.

(** [getMember({ id })]: [this.members.find(m => m.id === id)] *)
Definition getMember (id : AccountID) : option Ref :=
  find (fun m => String.eqb (OrgMember.id (h m)) id) (Org.members o).

(** [isMember(acc)] *)
Definition isMember (acc : AccountID) : bool :=
  match getMember acc with Some _ => true | None => false end.

(** [isOwner(m)]: [member && member.role <= OrgRole.Owner] *)
Definition isOwner (acc : AccountID) : option bool :=
  match getMember acc with
  | None => None
  | Some member => Some (OrgRole_leb (OrgMember.role (h member)) Owner)
  end.

(** [isAdmin(m)]: [member && member.role <= OrgRole.Admin] *)
Definition isAdmin (acc : AccountID) : option bool :=
  match getMember acc with
  | None => None
  | Some member => Some (OrgRole_leb (OrgMember.role (h member)) Admin)
  end.

(** [getMembersForGroup(group)]: the lookups, with the [undefined] ones
    filtered out. *)
Definition getMembersForGroup (group : Group.t) : list Ref :=
  flat_map (fun m => match getMember (MemberRef.id m) with
                     | Some r => [r]
                     | None => []
                     end)
           (Group.members group).

(** [getGroupsForMember({ id })] *)
Definition getGroupsForMember (id : AccountID) : list Group.t :=
  filter (fun g => JS.some (fun m => String.eqb (MemberRef.id m) id) (Group.members g))
         (Org.groups o).

(** [getGroupsForVault({ id })] *)
Definition getGroupsForVault (id : VaultID) : list Group.t :=
  filter (fun group => JS.some (fun v => String.eqb (VaultAccess.id v) id) (Group.vaults group))
         (Org.groups o).

(** [getMembersForVault({ id })] *)
Definition getMembersForVault (id : VaultID) : list Ref :=
  filter (fun member =>
            negb (OrgRole_eqb (OrgMember.role (h member)) Suspended)
            && JS.some (fun v => String.eqb (VaultAccess.id v) id)
                       (OrgMember.vaults (h member)))
         (Org.members o).

(** [getAccessors(vault)].  [this.getMember(m)!] is a compile-time
    assertion only: an id without a member record adds [undefined]
    ([None]) to the set. *)
Definition getAccessors (vault : VaultID) : list (option Ref) :=
  let results := JS.Set_of JS.same_object (map Some (getMembersForVault vault)) in
  fold_left
    (fun results group =>
       fold_left
         (fun results m => JS.Set_add JS.same_object (getMember (MemberRef.id m)) results)
         (Group.members group) results)
    (getGroupsForVault vault) results.

(** [getVaultsForMember(acc)] *)
Definition getVaultsForMember (acc : AccountID) : Result (list VaultID) :=
  match getMember acc with
  | None => Throw (ThrowString "A member with this id does not exist!"%string)
  | Some member =>
      let results :=
        JS.Set_of String.eqb (map VaultAccess.id (OrgMember.vaults (h member))) in
      Ok (fold_left
            (fun results group =>
               fold_left
                 (fun results vault => JS.Set_add String.eqb (VaultAccess.id vault) results)
                 (Group.vaults group) results)
            (getGroupsForMember (OrgMember.id (h member))) results)
  end.

(** The [vaults] arrays of [[member, ...this.getGroupsForMember(member)]]. *)
Definition vault_sources (member : Ref) : list (list VaultAccess.t) :=
  OrgMember.vaults (h member)
  :: map Group.vaults (getGroupsForMember (OrgMember.id (h member))).

(** [canRead(vault, account)] *)
Definition canRead (vault : VaultID) (account : AccountID) : option bool :=
  match getMember account with
  | None => None
  | Some member =>
      Some (JS.some (fun vaults =>
                       JS.some (fun v => String.eqb (VaultAccess.id v) vault) vaults)
                    (vault_sources member))
  end.

(** [canWrite(vault, acc)] *)
Definition canWrite (vault : VaultID) (acc : AccountID) : option bool :=
  match getMember acc with
  | None => None
  | Some member =>
      Some (negb (OrgRole_eqb (OrgMember.role (h member)) Suspended)
            && JS.some (fun vaults =>
                          JS.some (fun v => String.eqb (VaultAccess.id v) vault
                                            && negb (VaultAccess.readonly v))
                                  vaults)
                       (vault_sources member))
  end.
End Resolver.

(** ** Encoding helpers *)

(** Modelled from the spec: encoding.ts is not part of the sources.  A string
    is represented by its UTF-8 bytes, which [stringToBytes] returns, and
    [concatBytes] is "the exact byte concatenation" of its arguments. *)
Definition stringToBytes (s : string) : bytes := list_byte_of_string s.

Definition concatBytes (parts : list bytes) : bytes := List.concat parts.

(** [new Uint8Array([n])]: one element, stored modulo 256. *)
Definition Uint8Array_of (n : N) : bytes :=
  [match Byte.of_N (n mod 256) with Some b => b | None => x00 end].

(** The message that [sign] and [verify] hand to the provider. *)
Definition signedBytes (member : OrgMember.t) : bytes :=
  concatBytes [ stringToBytes (OrgMember.id member);
                stringToBytes (OrgMember.email member);
                Uint8Array_of (OrgRole_value (OrgMember.role member));
                OrgMember.publicKey member ].

(** ** External collaborators *)

(** [getProvider()]: the cryptographic provider (crypto.ts).  Its calls are
    asynchronous and may reject; key generation and signing draw on the
    outside world [W] (entropy), verification is a function of its
    arguments.  [generateRSAKey] yields [(privateKey, publicKey)]. *)
Record CryptoProvider (W : Type) := mkCryptoProvider {
  generateAESKey : AESKeyParams -> W -> Result bytes * W;
  generateRSAKey : RSAKeyParams -> W -> Result (bytes * bytes) * W;
  provider_sign : bytes -> bytes -> RSASigningParams -> W -> Result bytes * W;
  provider_verify : bytes -> bytes -> bytes -> RSASigningParams -> Result bool
}.
Arguments generateAESKey {W} _ _ _.
Arguments generateRSAKey {W} _ _ _.
Arguments provider_sign {W} _ _ _ _ _.
Arguments provider_verify {W} _ _ _ _ _.

(** The inherited [SharedContainer] (container.ts), whose state [C] is
    opaque here.  [delete this.encryptedData] is the one field of it that
    [Org] touches directly. *)
Record SharedContainer (C W : Type) := mkSharedContainer {
  container_lock : C -> C;
  container_setData : bytes -> C -> W -> Result unit * C * W;
  container_updateAccessors : list OrgMember.t -> C -> W -> Result unit * C * W;
  container_deleteEncryptedData : C -> C
}.
Arguments container_lock {C W} _ _.
Arguments container_setData {C W} _ _ _ _.
Arguments container_updateAccessors {C W} _ _ _ _.
Arguments container_deleteEncryptedData {C W} _ _.

(** ** State and the monad of methods that mutate and throw *)

(** Everything a method of [Org] can read or change: the member objects, the
    fields of the organization ([this]), the inherited container part of the
    same object ([super]) and the outside world. *)
Record State (C W : Type) := mkState {
  heap : Heap;
  this : Org.t;
  super : C;
  world : W
}.
Arguments mkState {C W} _ _ _ _.
Arguments heap {C W} _.
Arguments this {C W} _.
Arguments super {C W} _.
Arguments world {C W} _.

(** A method: from a state to what it returns or throws, and the state it
    leaves.  What was assigned before a [throw] stays assigned. *)
Definition M (C W A : Type) : Type := State C W -> Result A * State C W.

Definition ret {C W A} (a : A) : M C W A := fun st => (Ok a, st).

Definition throw {C W A} (e : Exn) : M C W A := fun st => (Throw e, st).

Definition bind {C W A B} (m : M C W A) (k : A -> M C W B) : M C W B :=
  fun st =>
    match m st with
    | (Ok a, st') => k a st'
    | (Throw e, st') => (Throw e, st')
    end.

Declare Scope method_scope.
Delimit Scope method_scope with method.
Notation "x <- c1 ;; c2" := (bind c1 (fun x => c2))
  (at level 100, c1 at next level, right associativity) : method_scope.
Notation "c1 ;; c2" := (bind c1 (fun _ => c2))
  (at level 100, right associativity) : method_scope.
Local Open Scope method_scope.

(** Reading and assigning fields. *)
Definition gets {C W A} (f : State C W -> A) : M C W A := fun st => (Ok (f st), st).

Definition read {C W A} (f : Heap -> Org.t -> Result A) : M C W A :=
  fun st => (f (heap st) (this st), st).

Definition modify_this {C W} (f : Org.t -> Org.t) : M C W unit :=
  fun st => (Ok tt, mkState (heap st) (f (this st)) (super st) (world st)).

Definition modify_super {C W} (f : C -> C) : M C W unit :=
  fun st => (Ok tt, mkState (heap st) (this st) (f (super st)) (world st)).

Definition set_signature {C W} (member : Ref) (s : bytes) : M C W unit :=
  fun st =>
    (Ok tt, mkState (heap_set (heap st) member
                              (OrgMember.with_signature (Some s) (heap st member)))
                    (this st) (super st) (world st)).

(** [await] of a provider call and of a container call. *)
Definition await_provider {C W A} (call : W -> Result A * W) : M C W A :=
  fun st =>
    let (r, w) := call (world st) in
    (r, mkState (heap st) (this st) (super st) w).

Definition await_container {C W} (call : C -> W -> Result unit * C * W) : M C W unit :=
  fun st =>
    match call (super st) (world st) with
    | (r, c, w) => (r, mkState (heap st) (this st) c w)
    end.

(** [Promise.all(xs.map(f))]: [map] starts every asynchronous call in array
    order and each one runs to its end whether or not another one rejects;
    the combined promise is rejected as soon as one of them is.  The calls
    are run here one after the other, and the rejection reported is the one
    of the earliest element that rejects. *)
Fixpoint Promise_all {C W A} (ps : list (M C W A)) : M C W (list A) :=
  fun st =>
    match ps with
    | [] => (Ok [], st)
    | p :: rest =>
        let (r, st1) := p st in
        let (rs, st2) := Promise_all rest st1 in
        (match r, rs with
         | Throw e, _ => Throw e
         | Ok _, Throw e => Throw e
         | Ok a, Ok l => Ok (a :: l)
         end, st2)
    end.

(** ** Signature protocol and key lifecycle *)

Section Lifecycle.
Context {C W : Type}.
Variable provider : CryptoProvider W.
Variable container : SharedContainer C W.

(** Stands for [marshal({ privateKey: bytesToBase64(privateKey),
    invitesKey: bytesToBase64(invitesKey) })] of encoding.ts. *)
Variable marshalKeys : bytes -> bytes -> string.

(** [async sign(member)] *)
Definition sign (member : Ref) : M C W Ref :=
  o <- gets this ;;
  match Org.privateKey o with
  | None => throw (ThrowString "Organisation needs to be unlocked first."%string)
  | Some privateKey =>
      m <- gets (fun st => heap st member) ;;
      signature <- await_provider
                     (provider_sign provider privateKey (signedBytes m) (Org.signingParams o)) ;;
      set_signature member signature ;;
      ret member
  end.

(** [async verify(member)].  It reads the member and the public key and
    assigns nothing, so it is a function of the heap and the organization. *)
Definition verify (h : Heap) (o : Org.t) (member : Ref) : Result unit :=
  match OrgMember.signature (h member) with
  | None => Throw (ThrowErr VERIFICATION_ERROR "No signed public key provided!"%string)
  | Some signature =>
      match provider_verify provider (Org.publicKey o) signature
                            (signedBytes (h member)) (Org.signingParams o) with
      | Throw e => Throw e
      | Ok true => Ok tt
      | Ok false =>
          Throw (ThrowErr VERIFICATION_ERROR
                   ("Failed to verify public key of " ++ OrgMember.name (h member) ++ "!")%string)
      end
  end.

(** The default argument of [verifyAll]:
    [this.members.filter(m => m.role !== OrgRole.Suspended)]. *)
Definition nonSuspended (h : Heap) (o : Org.t) : list Ref :=
  filter (fun m => negb (OrgRole_eqb (OrgMember.role (h m)) Suspended)) (Org.members o).

(** [async verifyAll(members = ...)]; [None] is the omitted argument. *)
Definition verifyAll (members : option (list Ref)) : M C W unit :=
  members <- match members with
             | Some l => ret l
             | None => gets (fun st => nonSuspended (heap st) (this st))
             end ;;
  Promise_all (map (fun obj => read (fun h o => verify h o obj)) members) ;;
  ret tt.

(** [async generateKeys()] *)
Definition generateKeys : M C W unit :=
  invitesKey <- await_provider (generateAESKey provider mkAESKeyParams) ;;
  modify_this (Org.with_invitesKey (Some invitesKey)) ;;
  keys <- await_provider (generateRSAKey provider mkRSAKeyParams) ;;
  let (privateKey, publicKey) := (keys : bytes * bytes) in
  modify_this (Org.with_privateKey (Some privateKey)) ;;
  modify_this (Org.with_publicKey publicKey) ;;
  await_container
    (container_setData container (stringToBytes (marshalKeys privateKey invitesKey))).

(** [async rotateKeys(force = false)] *)
Definition rotateKeys (force : bool) : M C W unit :=
  (if negb force then verifyAll None else ret tt) ;;
  generateKeys ;;
  modify_super (container_deleteEncryptedData container) ;;
  owners <- gets (fun st =>
                    map (heap st)
                        (filter (fun m => OrgRole_eqb (OrgMember.role (heap st m)) Owner)
                                (Org.members (this st)))) ;;
  await_container (container_updateAccessors container owners) ;;
  members <- gets (fun st => Org.members (this st)) ;;
  Promise_all (map (fun each => sign each) members) ;;
  ret tt.

(** [lock()].  The callback of [forEach] is [invite => invite.lock]: it
    looks the method up and does not call it, so every invite is left as
    it is. *)
Definition lock : M C W unit :=
  modify_super (container_lock container) ;;
  modify_this (Org.with_privateKey None) ;;
  modify_this (Org.with_invitesKey None) ;;
  modify_this (fun o =>
                 Org.with_invites
                   (map (fun invite => let _lock := Invite.lock in invite) (Org.invites o))
                   o).

End Lifecycle.

(** ** A provider and a container to compute with

    A keyed-tag scheme: the private key is ["s" :: k], the public key
    ["p" :: k], a signature is [k] followed by the message.  It offers no
    security; it implements the provider interface and lets the methods
    be run. *)

Module Demo.
Local Open Scope string_scope.
Local Open Scope list_scope.

Fixpoint bytes_eqb (a b : bytes) : bool :=
  match a, b with
  | [], [] => true
  | x :: a', y :: b' => Byte.eqb x y && bytes_eqb a' b'
  | _, _ => false
  end.

(** The [n]-th key the generator hands out. *)
Definition key_of (n : nat) : bytes := repeat "k"%byte (S n).

Definition provider : CryptoProvider nat :=
  mkCryptoProvider nat
    (fun _ w => (Ok (key_of w), S w))
    (fun _ w => (Ok ("s"%byte :: key_of w, "p"%byte :: key_of w), S w))
    (fun privateKey message _ w => (Ok (tl privateKey ++ message), w))
    (fun publicKey signature message _ => Ok (bytes_eqb signature (tl publicKey ++ message))).

Definition container : SharedContainer unit nat :=
  mkSharedContainer unit nat
    (fun c => c)
    (fun _ c w => (Ok tt, c, w))
    (fun _ c w => (Ok tt, c, w))
    (fun c => c).

Definition marshalKeys (privateKey invitesKey : bytes) : string :=
  string_of_list_byte (privateKey ++ invitesKey).

Definition params : RSASigningParams := mkRSASigningParams "RSA-PSS".

(** Sample members.  [alice1] and [alice2] differ in id and email only. *)
Definition member (id email : string) (signature : option bytes)
  (vaults : list VaultAccess.t) (role : OrgRole) : OrgMember.t :=
  OrgMember.mk id "Alice" email [x01; x02] signature None vaults role.

Definition heap_of (l : list OrgMember.t) : Heap :=
  fun r => nth r l (member "" "" None [] Member).

Definition org (publicKey : bytes) (privateKey : option bytes) (members : list Ref)
  (groups : list Group.t) (invites : list Invite.t) : Org.t :=
  Org.mk "org" Basic "a" "Org" publicKey privateKey
         (match privateKey with Some _ => Some [x07] | None => None end)
         params members groups [] invites "".

Definition state (h : Heap) (o : Org.t) (w : nat) : State unit nat :=
  mkState h o tt w.

End Demo.

(** ** Groups, invites and membership changes *)

(** [getGroup(name)]: [[...this.groups].find(g => g.name === name)] *)
Definition getGroup (o : Org.t) (name : string) : option Group.t :=
  find (fun g => String.eqb (Group.name g) name) (Org.groups o).

(** [getInvite(id)] *)
Definition getInvite (o : Org.t) (id : InviteID) : option Invite.t :=
  find (fun inv => String.eqb (Invite.id inv) id) (Org.invites o).

(** [removeInvite({ id })]:
    [this.invites = this.invites.filter(inv => inv.id !== id)] *)
Definition removeInvite {C W} (invite : Invite.t) : M C W unit :=
  modify_this
    (fun o =>
       Org.with_invites
         (filter (fun inv => negb (String.eqb (Invite.id inv) (Invite.id invite)))
                 (Org.invites o))
         o).

(** What [initialize] reads of an [Account] (account.ts). *)
Module Account.
Record t := mk {
  id : AccountID;
  name : string;
  email : string;
  publicKey : bytes
}.
End Account.

(** The argument object of [addOrUpdateMember]; [role] is optional. *)
Module MemberDetails.
Record t := mk {
  id : AccountID;
  name : string;
  email : string;
  publicKey : bytes;
  orgSignature : bytes;
  role : option OrgRole
}.
End MemberDetails.

(** [new OrgMember({ id, name, email, publicKey, orgSignature, role })]:
    no signature yet, no vaults, and
    [typeof role !== "undefined" && role in OrgRole ? role : OrgRole.Member]. *)
Definition OrgMember_new (id : AccountID) (name email : string) (publicKey orgSignature : bytes)
  (role : option OrgRole) : OrgMember.t :=
  OrgMember.mk id name email publicKey None (Some orgSignature) []
               (match role with Some r => r | None => Member end).

(** [Object.assign(existing, { name, email, publicKey, orgSignature, role })] *)
Definition OrgMember_assign (name email : string) (publicKey orgSignature : bytes)
  (role : OrgRole) (m : OrgMember.t) : OrgMember.t :=
  OrgMember.mk (OrgMember.id m) name email publicKey (OrgMember.signature m)
               (Some orgSignature) (OrgMember.vaults m) role.

(** [this.members.push(member)] *)
Definition Org_push_member (member : Ref) (o : Org.t) : Org.t :=
  Org.mk (Org.id o) (Org.type o) (Org.owner o) (Org.name o) (Org.publicKey o)
         (Org.privateKey o) (Org.invitesKey o) (Org.signingParams o)
         (Org.members o ++ [member]) (Org.groups o) (Org.vaults o) (Org.invites o)
         (Org.revision o).

(** Writing to the object behind a reference. *)
Definition update_member {C W} (r : Ref) (f : OrgMember.t -> OrgMember.t) : M C W unit :=
  fun st =>
    (Ok tt, mkState (heap_set (heap st) r (f (heap st r))) (this st) (super st) (world st)).

(** [new OrgMember(...)]: the object is created at [fresh], the reference
    that [new] hands out; it differs from every reference in use. *)
Definition new_OrgMember {C W} (fresh : Ref) (m : OrgMember.t) : M C W Ref :=
  fun st =>
    (Ok fresh, mkState (heap_set (heap st) fresh m) (this st) (super st) (world st)).

(** [updateAccessors] takes objects with an [id] and a [publicKey]; an
    account is handed to it as the record that carries them. *)
Definition accessor_of_account (account : Account.t) : OrgMember.t :=
  OrgMember.mk (Account.id account) (Account.name account) (Account.email account)
               (Account.publicKey account) None None [] Member.

Section Membership.
Context {C W : Type}.
Variable provider : CryptoProvider W.
Variable container : SharedContainer C W.
Variable marshalKeys : bytes -> bytes -> string.

(** [account.signOrg(org)] of account.ts: the account's signature over the
    organization, asynchronous like a provider call. *)
Variable signOrg : Account.t -> Org.t -> W -> Result bytes * W.

(** [async addOrUpdateMember({ id, name, email, publicKey, orgSignature, role })] *)
Definition addOrUpdateMember (fresh : Ref) (details : MemberDetails.t) : M C W unit :=
  o <- gets this ;;
  match Org.privateKey o with
  | None => throw (ThrowString "Organisation needs to be unlocked first."%string)
  | Some _ =>
      let role := match MemberDetails.role details with Some r => r | None => Member end in
      existing <- gets (fun st =>
                          find (fun m => String.eqb (OrgMember.id (heap st m))
                                                    (MemberDetails.id details))
                               (Org.members (this st))) ;;
      match existing with
      | Some existing =>
          update_member existing
            (OrgMember_assign (MemberDetails.name details) (MemberDetails.email details)
                              (MemberDetails.publicKey details)
                              (MemberDetails.orgSignature details) role) ;;
          sign provider existing ;;
          ret tt
      | None =>
          created <- new_OrgMember fresh
                       (OrgMember_new (MemberDetails.id details) (MemberDetails.name details)
                                      (MemberDetails.email details)
                                      (MemberDetails.publicKey details)
                                      (MemberDetails.orgSignature details) (Some role)) ;;
          member <- sign provider created ;;
          modify_this (Org_push_member member)
      end
  end.

(** [async initialize(account)] *)
Definition initialize (fresh : Ref) (account : Account.t) : M C W unit :=
  await_container (container_updateAccessors container [accessor_of_account account]) ;;
  generateKeys provider container marshalKeys ;;
  o <- gets this ;;
  orgSignature <- await_provider (signOrg account o) ;;
  created <- new_OrgMember fresh
               (OrgMember_new (Account.id account) (Account.name account)
                              (Account.email account) (Account.publicKey account)
                              orgSignature (Some Owner)) ;;
  member <- sign provider created ;;
  modify_this (Org_push_member member).

End Membership.

(** ** Vocabulary of the further properties *)

(** Two heaps that agree on what the access resolver reads of a member:
    id, role and vault assignments. *)
Definition same_access (h h' : Heap) : Prop :=
  forall r, OrgMember.id (h' r) = OrgMember.id (h r)
            /\ OrgMember.role (h' r) = OrgMember.role (h r)
            /\ OrgMember.vaults (h' r) = OrgMember.vaults (h r).

(** Two organizations with the same registries. *)
Definition same_registries (o o' : Org.t) : Prop :=
  Org.members o' = Org.members o /\ Org.groups o' = Org.groups o
  /\ Org.invites o' = Org.invites o /\ Org.vaults o' = Org.vaults o.

(** From one state to another, the registries and what the resolver reads
    of the members are the same. *)
Definition access_kept {C W} (st st' : State C W) : Prop :=
  same_registries (this st) (this st') /\ same_access (heap st) (heap st').

(** A method that leaves them the same, however it ends. *)
Definition keeps_access {C W A} (m : M C W A) : Prop :=
  forall st, access_kept st (snd (m st)).

(** The record that [addOrUpdateMember] writes over an existing member
    before it signs it, and the one it creates for a new member. *)
Definition assigned_details (details : MemberDetails.t) (m : OrgMember.t) : OrgMember.t :=
  OrgMember_assign (MemberDetails.name details) (MemberDetails.email details)
                   (MemberDetails.publicKey details) (MemberDetails.orgSignature details)
                   (match MemberDetails.role details with Some r => r | None => Member end)
                   m.

Definition new_details (details : MemberDetails.t) : OrgMember.t :=
  OrgMember_new (MemberDetails.id details) (MemberDetails.name details)
                (MemberDetails.email details) (MemberDetails.publicKey details)
                (MemberDetails.orgSignature details)
                (Some (match MemberDetails.role details with Some r => r | None => Member end)).

(** No two entries of [this.members] have the same id. *)
Definition unique_ids (h : Heap) (o : Org.t) : Prop :=
  NoDup (map (fun m => OrgMember.id (h m)) (Org.members o)).

(** A signature made with [privateKey] is refused under [publicKey] for
    every message other than the one that was signed. *)
Definition binds {W} (p : CryptoProvider W) (privateKey publicKey : bytes) : Prop :=
  forall message message' params w signature w',
    provider_sign p privateKey message params w = (Ok signature, w') ->
    message' <> message ->
    provider_verify p publicKey signature message' params = Ok false.

(** The four fields that [sign] covers. *)
Definition signed_fields (m : OrgMember.t) : AccountID * string * OrgRole * bytes :=
  (OrgMember.id m, OrgMember.email m, OrgMember.role m, OrgMember.publicKey m).

(** ** Vocabulary of the access rules *)

(** The vault occurs in a [vaults] array, with any [readonly] flag. *)
Definition assigned (vault : VaultID) (vaults : list VaultAccess.t) : Prop :=
  exists v, In v vaults /\ VaultAccess.id v = vault.

(** The vault occurs in a [vaults] array with [readonly = false]. *)
Definition writable (vault : VaultID) (vaults : list VaultAccess.t) : Prop :=
  exists v, In v vaults /\ VaultAccess.id v = vault /\ VaultAccess.readonly v = false.

(** The group lists the account id among its members. *)
Definition contains (g : Group.t) (id : AccountID) : Prop :=
  exists ref, In ref (Group.members g) /\ MemberRef.id ref = id.

(** ** Vocabulary of the signature scheme *)

(** Every signature made with [privateKey] is accepted under [publicKey]:
    the two form a matching pair. *)
Definition accepts {W} (p : CryptoProvider W) (privateKey publicKey : bytes) : Prop :=
  forall message params w signature w',
    provider_sign p privateKey message params w = (Ok signature, w') ->
    provider_verify p publicKey signature message params = Ok true.

(** Every signature made with [privateKey] is refused under [publicKey]. *)
Definition refuses {W} (p : CryptoProvider W) (privateKey publicKey : bytes) : Prop :=
  forall message params w signature w',
    provider_sign p privateKey message params w = (Ok signature, w') ->
    provider_verify p publicKey signature message params = Ok false.

(** The key pairs that the provider generates match. *)
Definition sound_keys {W} (p : CryptoProvider W) : Prop :=
  forall params w privateKey publicKey w',
    generateRSAKey p params w = (Ok (privateKey, publicKey), w') ->
    accepts p privateKey publicKey.

(** The error of [verify] for a signature that does not check out. *)
Definition verification_failed (member : OrgMember.t) : Exn :=
  ThrowErr VERIFICATION_ERROR
           ("Failed to verify public key of " ++ OrgMember.name member ++ "!")%string.

Local Open Scope string_scope.
Local Open Scope list_scope.

(** * Facts about the runtime model *)

Section SetFacts.
Context {A : Type}.
Variable eqb : A -> A -> bool.
Hypothesis eqb_ok : forall x y, eqb x y = true <-> x = y.

Lemma Set_add_In x s y : In y (JS.Set_add eqb x s) <-> In y s \/ y = x.
Proof.
  unfold JS.Set_add.
  destruct (existsb (eqb x) s) eqn:E.
  - split; [now left|].
    intros [H | ->]; [exact H|].
    apply existsb_exists in E as [z [Hz Hxz]].
    apply eqb_ok in Hxz. now subst.
  - rewrite in_app_iff. simpl. intuition.
Qed.

Lemma Set_add_NoDup x s : NoDup s -> NoDup (JS.Set_add eqb x s).
Proof.
  intros Hs. unfold JS.Set_add.
  destruct (existsb (eqb x) s) eqn:E; [exact Hs|].
  apply NoDup_app; [exact Hs | repeat constructor; intros [] | ].
  intros a Ha [Hxa | []]. subst a.
  assert (existsb (eqb x) s = true) as F; [|congruence].
  apply existsb_exists. exists x. split; [exact Ha | now apply eqb_ok].
Qed.

(** Adding [f b] for each [b] of a list. *)
Lemma Set_add_all_In {B} (f : B -> A) l s y :
  In y (fold_left (fun s b => JS.Set_add eqb (f b) s) l s)
  <-> In y s \/ exists b, In b l /\ y = f b.
Proof.
  revert s. induction l as [|b l IH]; intros s; simpl.
  - split; [now left | intros [H | [b [[] _]]]; exact H].
  - rewrite IH, Set_add_In. split.
    + intros [[H | ->] | [b' [Hb' ->]]]; eauto.
    + intros [H | [b' [[<- | Hb'] ->]]]; eauto.
Qed.

Lemma Set_add_all_NoDup {B} (f : B -> A) l s :
  NoDup s -> NoDup (fold_left (fun s b => JS.Set_add eqb (f b) s) l s).
Proof.
  revert s. induction l as [|b l IH]; intros s Hs; simpl; [exact Hs|].
  apply IH, Set_add_NoDup, Hs.
Qed.

(** The two nested loops of [getAccessors] and [getVaultsForMember]. *)
Lemma Set_add_nested_In {G B} (items : G -> list B) (f : B -> A) gs s y :
  In y (fold_left (fun s g => fold_left (fun s b => JS.Set_add eqb (f b) s) (items g) s) gs s)
  <-> In y s \/ exists g b, In g gs /\ In b (items g) /\ y = f b.
Proof.
  revert s. induction gs as [|g gs IH]; intros s; simpl.
  - split; [now left | intros [H | [g [b [[] _]]]]; exact H].
  - rewrite IH, Set_add_all_In. split.
    + intros [[H | [b [Hb ->]]] | [g' [b [Hg [Hb ->]]]]]; [now left | right.. ].
      * exists g, b. auto.
      * exists g', b. auto.
    + intros [H | [g' [b [[<- | Hg] [Hb ->]]]]]; eauto 7.
Qed.

Lemma Set_add_nested_NoDup {G B} (items : G -> list B) (f : B -> A) gs s :
  NoDup s ->
  NoDup (fold_left (fun s g => fold_left (fun s b => JS.Set_add eqb (f b) s) (items g) s) gs s).
Proof.
  revert s. induction gs as [|g gs IH]; intros s Hs; simpl; [exact Hs|].
  apply IH, Set_add_all_NoDup, Hs.
Qed.

Lemma Set_of_In l y : In y (JS.Set_of eqb l) <-> In y l.
Proof.
  unfold JS.Set_of.
  rewrite (Set_add_all_In (fun x => x)). split.
  - intros [[] | [b [Hb ->]]]. exact Hb.
  - intros H. right. eauto.
Qed.

Lemma Set_of_NoDup l : NoDup (JS.Set_of eqb l).
Proof. apply (Set_add_all_NoDup (fun x => x)). constructor. Qed.

End SetFacts.

Lemma same_object_ok x y : JS.same_object x y = true <-> x = y.
Proof.
  destruct x as [a|], y as [b|]; simpl; try (split; congruence).
  rewrite Nat.eqb_eq. split; congruence.
Qed.

Lemma truthy_Some_and b1 b2 :
  JS.truthy (Some (b1 && b2)) = true <-> b1 = true /\ b2 = true.
Proof. destruct b1, b2; simpl; intuition discriminate. Qed.

Lemma OrgRole_eqb_eq a b : OrgRole_eqb a b = true <-> a = b.
Proof. destruct a, b; simpl; split; intros H; try reflexivity; discriminate. Qed.

Lemma not_Suspended role : negb (OrgRole_eqb role Suspended) = true <-> role <> Suspended.
Proof.
  rewrite negb_true_iff. split.
  - intros H E. apply OrgRole_eqb_eq in E. congruence.
  - intros H. destruct (OrgRole_eqb role Suspended) eqn:E; [|reflexivity].
    apply OrgRole_eqb_eq in E. contradiction.
Qed.

(** * The access resolver *)

Section ResolverFacts.
Variable h : Heap.
Variable o : Org.t.

Lemma getMember_Some acc m :
  getMember h o acc = Some m -> In m (Org.members o) /\ OrgMember.id (h m) = acc.
Proof.
  unfold getMember. intros H. apply find_some in H as [Hin Heq].
  split; [exact Hin | now apply String.eqb_eq].
Qed.

Lemma some_assigned vault vaults :
  JS.some (fun v => String.eqb (VaultAccess.id v) vault) vaults = true
  <-> assigned vault vaults.
Proof.
  unfold JS.some, assigned. rewrite existsb_exists.
  split; intros [v [Hv E]]; exists v; (split; [exact Hv|]); now apply String.eqb_eq.
Qed.

Lemma some_writable vault vaults :
  JS.some (fun v => String.eqb (VaultAccess.id v) vault && negb (VaultAccess.readonly v))
          vaults = true
  <-> writable vault vaults.
Proof.
  unfold JS.some, writable. rewrite existsb_exists. split.
  - intros [v [Hv E]]. apply andb_true_iff in E as [E1 E2].
    exists v. repeat split; [exact Hv | now apply String.eqb_eq | now apply negb_true_iff].
  - intros [v [Hv [E1 E2]]]. exists v. split; [exact Hv|].
    apply andb_true_iff. split; [now apply String.eqb_eq | now apply negb_true_iff].
Qed.

Lemma in_getGroupsForMember g id :
  In g (getGroupsForMember o id) <-> In g (Org.groups o) /\ contains g id.
Proof.
  unfold getGroupsForMember, contains, JS.some.
  rewrite filter_In, existsb_exists.
  split; intros [Hg [ref [Hr E]]]; (split; [exact Hg|]); exists ref;
    (split; [exact Hr|]); now apply String.eqb_eq.
Qed.

Lemma in_getGroupsForVault g vault :
  In g (getGroupsForVault o vault) <-> In g (Org.groups o) /\ assigned vault (Group.vaults g).
Proof.
  unfold getGroupsForVault. rewrite filter_In, some_assigned. reflexivity.
Qed.

Lemma in_getMembersForVault m vault :
  In m (getMembersForVault h o vault)
  <-> In m (Org.members o) /\ OrgMember.role (h m) <> Suspended
      /\ assigned vault (OrgMember.vaults (h m)).
Proof.
  unfold getMembersForVault.
  rewrite filter_In, andb_true_iff, not_Suspended, some_assigned. reflexivity.
Qed.

(** Which sources make the inner [some] of [canWrite] true. *)
Lemma vault_sources_writable vault member :
  JS.some (fun vaults =>
             JS.some (fun v => String.eqb (VaultAccess.id v) vault
                               && negb (VaultAccess.readonly v)) vaults)
          (vault_sources h o member) = true
  <-> writable vault (OrgMember.vaults (h member))
      \/ exists g, In g (Org.groups o) /\ contains g (OrgMember.id (h member))
                   /\ writable vault (Group.vaults g).
Proof.
  unfold vault_sources, JS.some at 1. simpl. rewrite orb_true_iff.
  rewrite some_writable, existsb_exists. split.
  - intros [H | [vs [Hvs Hw]]]; [now left | right].
    apply in_map_iff in Hvs as [g [<- Hg]].
    apply in_getGroupsForMember in Hg as [Hg Hc].
    exists g. repeat split; [exact Hg | exact Hc | now apply some_writable].
  - intros [H | [g [Hg [Hc Hw]]]]; [now left | right].
    exists (Group.vaults g). split.
    + apply in_map, in_getGroupsForMember. now split.
    + now apply some_writable.
Qed.

(** Membership in the result of [getAccessors]: a member directly assigned
    and not suspended, or whatever [getMember] yields for a member entry of
    a group assigned to the vault. *)
Lemma getAccessors_In vault x :
  In x (getAccessors h o vault)
  <-> (exists m, x = Some m /\ In m (getMembersForVault h o vault))
      \/ exists g ref, In g (getGroupsForVault o vault) /\ In ref (Group.members g)
                       /\ x = getMember h o (MemberRef.id ref).
Proof.
  unfold getAccessors.
  rewrite (Set_add_nested_In JS.same_object same_object_ok Group.members
             (fun m => getMember h o (MemberRef.id m))).
  rewrite (Set_of_In JS.same_object same_object_ok), in_map_iff.
  split; (intros [[m H] | H]; [left | now right]); exists m; intuition.
Qed.

Lemma getAccessors_NoDup vault : NoDup (getAccessors h o vault).
Proof.
  unfold getAccessors.
  apply (Set_add_nested_NoDup JS.same_object same_object_ok Group.members
           (fun m => getMember h o (MemberRef.id m))).
  apply (Set_of_NoDup JS.same_object same_object_ok).
Qed.

End ResolverFacts.

(** C4.  [canWrite(vault, acc)] is truthy exactly when [getMember] finds a
    member record for the account, that member is not Suspended, and the
    vault occurs with [readonly = false] among the member's own assignments
    or among those of some group that lists the account; for a Suspended
    member it is falsy whatever the flags are. *)
Theorem canWrite_iff (h : Heap) (o : Org.t) (vault : VaultID) (acc : AccountID) :
  (JS.truthy (canWrite h o vault acc) = true
   <-> exists member,
         getMember h o acc = Some member
         /\ OrgMember.role (h member) <> Suspended
         /\ (writable vault (OrgMember.vaults (h member))
             \/ exists g, In g (Org.groups o) /\ contains g acc
                          /\ writable vault (Group.vaults g)))
  /\ (forall member,
        getMember h o acc = Some member ->
        OrgMember.role (h member) = Suspended ->
        JS.truthy (canWrite h o vault acc) = false).
Proof.
  unfold canWrite. split.
  - destruct (getMember h o acc) as [member|] eqn:G.
    + pose proof (getMember_Some h o acc member G) as [_ Hid].
      pose proof (vault_sources_writable h o vault member) as Hsrc.
      rewrite Hid in Hsrc.
      rewrite truthy_Some_and, not_Suspended, Hsrc. split.
      * intros [Hr Hw]. exists member. auto.
      * intros [m [E [Hr Hw]]]. injection E as <-. auto.
    + split; [discriminate | intros [m [E _]]; discriminate].
  - intros member G Hr. rewrite G, Hr. reflexivity.
Qed.

(** C4, at a suspended member whose own assignment and whose group both
    grant write access. *)
Lemma canWrite_iff_witness :
  let h := Demo.heap_of [Demo.member "m" "m@x" None [VaultAccess.mk "v" false] Suspended] in
  let o := Demo.org [] None [0]
             [Group.mk "g" [MemberRef.mk "m"] [VaultAccess.mk "v" false]] [] in
  getMember h o "m" = Some 0
  /\ OrgMember.role (h 0) = Suspended
  /\ JS.truthy (canWrite h o "v" "m") = false.
Proof.
  intros h o.
  assert (G : getMember h o "m" = Some 0) by reflexivity.
  assert (R : OrgMember.role (h 0) = Suspended) by reflexivity.
  exact (conj G (conj R (proj2 (canWrite_iff h o "v" "m") 0 G R))).
Defined.

(** C5.  With a member record, [getVaultsForMember] returns, without
    duplicates, exactly the ids of the member's own vaults and of the vaults
    of every group that lists the account; without one it throws
    "A member with this id does not exist!".  Either way the state is the
    one before the call. *)
Theorem getVaultsForMember_spec {C W} (st : State C W) (acc : AccountID) :
  match getMember (heap st) (this st) acc with
  | Some member =>
      exists vs,
        read (fun h o => getVaultsForMember h o acc) st = (Ok vs, st)
        /\ NoDup vs
        /\ forall v, In v vs
                     <-> In v (map VaultAccess.id (OrgMember.vaults (heap st member)))
                         \/ exists g, In g (Org.groups (this st)) /\ contains g acc
                                      /\ In v (map VaultAccess.id (Group.vaults g))
  | None =>
      read (fun h o => getVaultsForMember h o acc) st
      = (Throw (ThrowString "A member with this id does not exist!"), st)
  end.
Proof.
  unfold read, getVaultsForMember.
  destruct (getMember (heap st) (this st) acc) as [member|] eqn:G; [|reflexivity].
  pose proof (getMember_Some _ _ _ _ G) as [_ Hid]. rewrite Hid.
  eexists. split; [reflexivity|]. split.
  - apply (Set_add_nested_NoDup String.eqb String.eqb_eq Group.vaults VaultAccess.id).
    apply (Set_of_NoDup String.eqb String.eqb_eq).
  - intros v.
    rewrite (Set_add_nested_In String.eqb String.eqb_eq Group.vaults VaultAccess.id).
    rewrite (Set_of_In String.eqb String.eqb_eq). split.
    + intros [H | [g [b [Hg [Hb ->]]]]]; [now left | right].
      apply in_getGroupsForMember in Hg as [Hg Hc].
      exists g. repeat split; [exact Hg | exact Hc | now apply in_map].
    + intros [H | [g [Hg [Hc Hv]]]]; [now left | right].
      apply in_map_iff in Hv as [b [<- Hb]].
      exists g, b. repeat split; [|exact Hb]. apply in_getGroupsForMember. now split.
Qed.

(** The resolver on a member reached through a group only, and on a
    member with a read-only direct assignment. *)
Example resolver_on_samples :
  let h := Demo.heap_of [Demo.member "m" "m@x" None [] Member;
                         Demo.member "n" "n@x" None [VaultAccess.mk "v" true] Member] in
  let o := Demo.org [] None [0; 1]
             [Group.mk "g" [MemberRef.mk "m"] [VaultAccess.mk "v" false]] [] in
  getVaultsForMember h o "m" = Ok ["v"]
  /\ canWrite h o "v" "m" = Some true
  /\ canRead h o "v" "n" = Some true
  /\ canWrite h o "v" "n" = Some false
  /\ canWrite h o "v" "nobody" = None
  /\ getAccessors h o "v" = [Some 1; Some 0].
Proof. repeat split. Qed.

(** C6.  A group assigned to the vault that lists an id without a member
    record makes [getAccessors] return an [undefined] entry, while
    [getMembersForGroup] drops the same id. *)
Theorem getAccessors_dangling_id :
  let h := Demo.heap_of [] in
  let g := Group.mk "g" [MemberRef.mk "ghost"] [VaultAccess.mk "v" false] in
  let o := Demo.org [] None [] [g] [] in
  getAccessors h o "v" = [None] /\ getMembersForGroup h o g = [].
Proof. split; reflexivity. Qed.

(** C10.  A Suspended member that a member entry of some group assigned to
    the vault resolves to is in the result of [getAccessors], although
    [getMembersForVault] never lists it. *)
Theorem getAccessors_includes_suspended_group_member
  (h : Heap) (o : Org.t) (vault : VaultID) (g : Group.t) (ref : MemberRef.t) (m : Ref) :
  In g (Org.groups o) ->
  assigned vault (Group.vaults g) ->
  In ref (Group.members g) ->
  getMember h o (MemberRef.id ref) = Some m ->
  OrgMember.role (h m) = Suspended ->
  In (Some m) (getAccessors h o vault) /\ ~ In m (getMembersForVault h o vault).
Proof.
  intros Hg Hv Hr Hm Hs. split.
  - apply getAccessors_In. right. exists g, ref.
    repeat split; [|exact Hr | now symmetry].
    apply in_getGroupsForVault. now split.
  - intros H. apply in_getMembersForVault in H as [_ [H _]]. contradiction.
Qed.

(** C10, at a suspended member with a direct assignment and a group. *)
Lemma getAccessors_includes_suspended_group_member_witness :
  let h := Demo.heap_of [Demo.member "m" "m@x" None [VaultAccess.mk "v" false] Suspended] in
  let g := Group.mk "g" [MemberRef.mk "m"] [VaultAccess.mk "v" true] in
  let o := Demo.org [] None [0] [g] [] in
  In (Some 0) (getAccessors h o "v") /\ ~ In 0 (getMembersForVault h o "v").
Proof.
  intros h g o.
  apply (getAccessors_includes_suspended_group_member h o "v" g (MemberRef.mk "m") 0).
  - simpl. now left.
  - exists (VaultAccess.mk "v" true). simpl. split; [now left | reflexivity].
  - simpl. now left.
  - reflexivity.
  - reflexivity.
Defined.

(** * Signatures and keys *)

Ltac run_method :=
  unfold bind, gets, read, ret, throw, modify_this, modify_super, set_signature,
    await_provider, await_container; simpl.

Lemma heap_set_same h r m : heap_set h r m r = m.
Proof. unfold heap_set. now rewrite Nat.eqb_refl. Qed.

Lemma heap_set_other h r m r' : r' <> r -> heap_set h r m r' = h r'.
Proof. unfold heap_set. intros H. apply Nat.eqb_neq in H. now rewrite H. Qed.

Lemma signedBytes_with_signature s m :
  signedBytes (OrgMember.with_signature s m) = signedBytes m.
Proof. reflexivity. Qed.

Lemma with_signature_twice s s' m :
  OrgMember.with_signature s (OrgMember.with_signature s' m) = OrgMember.with_signature s m.
Proof. reflexivity. Qed.

Lemma Promise_all_read {C W A} (f : Heap -> Org.t -> Result A)
  (rest : list (M C W A)) (st : State C W) :
  Promise_all (read f :: rest) st
  = let (rs, st2) := Promise_all rest st in
    (match f (heap st) (this st), rs with
     | Throw e, _ => Throw e
     | Ok _, Throw e => Throw e
     | Ok a, Ok l => Ok (a :: l)
     end, st2).
Proof. reflexivity. Qed.

Section LifecycleFacts.
Context {C W : Type}.
Variable provider : CryptoProvider W.
Variable container : SharedContainer C W.
Variable marshalKeys : bytes -> bytes -> string.

Lemma sign_locked (member : Ref) (st : State C W) :
  Org.privateKey (this st) = None ->
  sign provider member st
  = (Throw (ThrowString "Organisation needs to be unlocked first."), st).
Proof. intros H. unfold sign. run_method. now rewrite H. Qed.

Lemma sign_unlocked (member : Ref) (st : State C W) privateKey :
  Org.privateKey (this st) = Some privateKey ->
  sign provider member st
  = match provider_sign provider privateKey (signedBytes (heap st member))
                        (Org.signingParams (this st)) (world st) with
    | (Ok signature, w) =>
        (Ok member,
         mkState (heap_set (heap st) member
                           (OrgMember.with_signature (Some signature) (heap st member)))
                 (this st) (super st) w)
    | (Throw e, w) => (Throw e, mkState (heap st) (this st) (super st) w)
    end.
Proof.
  intros H. unfold sign. run_method. rewrite H. run_method.
  now destruct (provider_sign _ _ _ _ _) as [[signature|e] w].
Qed.

(** [verify] looks at the signature, the signed bytes and the name only. *)
Lemma verify_ext h1 h2 o r :
  OrgMember.signature (h1 r) = OrgMember.signature (h2 r) ->
  signedBytes (h1 r) = signedBytes (h2 r) ->
  OrgMember.name (h1 r) = OrgMember.name (h2 r) ->
  verify provider h1 o r = verify provider h2 o r.
Proof. intros Hs Hb Hn. unfold verify. now rewrite Hs, Hb, Hn. Qed.

(** What [verify] returns, by the provider's answer. *)
Lemma verify_accepted h o r signature :
  OrgMember.signature (h r) = Some signature ->
  provider_verify provider (Org.publicKey o) signature (signedBytes (h r))
                  (Org.signingParams o) = Ok true ->
  verify provider h o r = Ok tt.
Proof. intros Hs Hv. unfold verify. now rewrite Hs, Hv. Qed.

Lemma verify_refused h o r signature :
  OrgMember.signature (h r) = Some signature ->
  provider_verify provider (Org.publicKey o) signature (signedBytes (h r))
                  (Org.signingParams o) = Ok false ->
  verify provider h o r = Throw (verification_failed (h r)).
Proof. intros Hs Hv. unfold verify. now rewrite Hs, Hv. Qed.

(** The calls that [verifyAll] joins leave the state alone, and their
    join is rejected exactly when one of them is, with the error of one
    that is. *)
Lemma verify_each (l : list Ref) (st : State C W) :
  exists r,
    Promise_all (map (fun obj => read (fun h o => verify provider h o obj)) l) st = (r, st)
    /\ ((exists done, r = Ok done)
        /\ (forall m, In m l -> verify provider (heap st) (this st) m = Ok tt)
        \/ exists e m, r = Throw e /\ In m l
                       /\ verify provider (heap st) (this st) m = Throw e).
Proof.
  induction l as [|x l [r [Hrun IH]]]; cbn [map].
  - eexists. split; [reflexivity|]. left. split; [eauto | intros m []].
  - rewrite Promise_all_read, Hrun.
    destruct (verify provider (heap st) (this st) x) as [[]|e] eqn:Vx.
    + destruct IH as [[[done ->] Hall] | [e [m [-> [Hm Hv]]]]].
      * eexists. split; [reflexivity|]. left. split; [eauto|].
        intros m [<- | Hm]; [exact Vx | now apply Hall].
      * eexists. split; [reflexivity|]. right. exists e, m.
        repeat split; [now right | exact Hv].
    + eexists. split; [reflexivity|]. right. exists e, x.
      repeat split; [now left | exact Vx].
Qed.

Lemma in_nonSuspended h o m :
  In m (nonSuspended h o) <-> In m (Org.members o) /\ OrgMember.role (h m) <> Suspended.
Proof. unfold nonSuspended. now rewrite filter_In, not_Suspended. Qed.

(** C1.  When some member that is not Suspended does not verify under the
    current public key, [rotateKeys(false)] throws the verification error
    of such a member and leaves the whole state as it was: the public key,
    the private key and the invites key in particular. *)
Theorem rotateKeys_aborts_on_failed_verification (st : State C W) :
  (exists m, In m (Org.members (this st))
             /\ OrgMember.role (heap st m) <> Suspended
             /\ verify provider (heap st) (this st) m <> Ok tt) ->
  exists e m,
    In m (Org.members (this st))
    /\ OrgMember.role (heap st m) <> Suspended
    /\ verify provider (heap st) (this st) m = Throw e
    /\ rotateKeys provider container marshalKeys false st = (Throw e, st).
Proof.
  intros [bad [Hin [Hrole Hbad]]].
  destruct (verify_each (nonSuspended (heap st) (this st)) st)
    as [r [Hrun [[_ Hall] | [e [m [-> [Hm Hv]]]]]]].
  - exfalso. apply Hbad, Hall, in_nonSuspended. now split.
  - apply in_nonSuspended in Hm as [Hm1 Hm2].
    exists e, m. repeat split; try assumption.
    unfold rotateKeys, verifyAll, bind, gets. cbn [negb]. now rewrite Hrun.
Qed.

(** X16.  When every member that is not Suspended verifies, the check of
    [rotateKeys(false)] changes nothing and the rotation goes on as
    [rotateKeys(true)] does; Suspended members are not looked at. *)
Lemma rotateKeys_check_passes (st : State C W) :
  (forall m, In m (Org.members (this st)) ->
             OrgMember.role (heap st m) <> Suspended ->
             verify provider (heap st) (this st) m = Ok tt) ->
  rotateKeys provider container marshalKeys false st
  = rotateKeys provider container marshalKeys true st.
Proof.
  intros Hall.
  destruct (verify_each (nonSuspended (heap st) (this st)) st)
    as [r [Hrun [[[done ->] _] | [e [m [-> [Hm Hv]]]]]]].
  - unfold rotateKeys, verifyAll, bind at 1 2 3, gets at 1. cbn [negb].
    rewrite Hrun. unfold bind at 2, ret at 1 2. reflexivity.
  - apply in_nonSuspended in Hm as [Hm1 Hm2].
    rewrite (Hall m Hm1 Hm2) in Hv. discriminate.
Qed.

End LifecycleFacts.

(** * Key rotation *)

Lemma Promise_all_cons {C W A} (p : M C W A) (rest : list (M C W A)) (st : State C W) :
  Promise_all (p :: rest) st
  = let (r, st1) := p st in
    let (rs, st2) := Promise_all rest st1 in
    (match r, rs with
     | Throw e, _ => Throw e
     | Ok _, Throw e => Throw e
     | Ok a, Ok l => Ok (a :: l)
     end, st2).
Proof. reflexivity. Qed.

Section KeyRotation.
Context {C W : Type}.
Variable provider : CryptoProvider W.
Variable container : SharedContainer C W.
Variable marshalKeys : bytes -> bytes -> string.

Lemma verifyAll_keeps_state members (st : State C W) :
  snd (verifyAll provider members st) = st.
Proof.
  unfold verifyAll, bind.
  destruct members as [l|].
  - unfold ret at 1.
    destruct (verify_each provider l st) as [r [-> _]]. now destruct r.
  - unfold gets at 1.
    destruct (verify_each provider (nonSuspended (heap st) (this st)) st) as [r [-> _]].
    now destruct r.
Qed.

(** A successful [generateKeys] installs a key pair that the provider
    generated, and touches no member. *)
Lemma generateKeys_Ok (st st1 : State C W) :
  generateKeys provider container marshalKeys st = (Ok tt, st1) ->
  exists invitesKey privateKey publicKey w w',
    generateRSAKey provider mkRSAKeyParams w = (Ok (privateKey, publicKey), w')
    /\ heap st1 = heap st
    /\ this st1 = Org.with_publicKey publicKey
                    (Org.with_privateKey (Some privateKey)
                       (Org.with_invitesKey (Some invitesKey) (this st))).
Proof.
  unfold generateKeys. run_method.
  destruct (generateAESKey provider mkAESKeyParams (world st)) as [[ik|e] w0];
    [simpl|discriminate].
  destruct (generateRSAKey provider mkRSAKeyParams w0) as [[[sk pk]|e] w1] eqn:G;
    [simpl|discriminate].
  destruct (container_setData _ _ _ _) as [[r c] w2].
  intros H. injection H as -> <-.
  exists ik, sk, pk, w0, w1. auto.
Qed.

(** The re-signing loop: when every [sign] succeeds, each member of the list
    ends with a signature that the provider made with the private key over
    the member's bytes; nothing else about any member changes. *)
Lemma sign_all privateKey (l : list Ref) :
  forall (st st' : State C W) done,
    Org.privateKey (this st) = Some privateKey ->
    Promise_all (map (fun each => sign provider each) l) st = (Ok done, st') ->
    this st' = this st
    /\ forall x,
        (In x l ->
         exists signature w w',
           heap st' x = OrgMember.with_signature (Some signature) (heap st x)
           /\ provider_sign provider privateKey (signedBytes (heap st x))
                            (Org.signingParams (this st)) w = (Ok signature, w'))
        /\ (~ In x l -> heap st' x = heap st x).
Proof.
  induction l as [|a l IH]; intros st st' done Hk Hrun.
  - injection Hrun as _ <-. split; [reflexivity|]. intros x. split; [intros [] | reflexivity].
  - cbn [map] in Hrun. rewrite Promise_all_cons, (sign_unlocked provider a st privateKey Hk) in Hrun.
    destruct (provider_sign provider privateKey _ _ _) as [[sig|e] w1] eqn:S.
    + match type of Hrun with context [Promise_all _ ?s] => set (st1 := s) in * end.
      destruct (Promise_all _ st1) as [[done'|e] st2] eqn:P; [|discriminate].
      injection Hrun as _ <-.
      destruct (IH st1 st2 done' Hk P) as [Hthis Hheap].
      split; [exact Hthis|]. intros x.
      destruct (in_dec Nat.eq_dec x l) as [Hin | Hout].
      * split; [intros _ | intros H; exfalso; apply H; now right].
        destruct (proj1 (Hheap x) Hin) as [sig' [w [w' [Hx Hs]]]].
        exists sig', w, w'. rewrite Hx. subst st1; simpl in *.
        destruct (Nat.eq_dec x a) as [->|Hxa].
        -- rewrite heap_set_same in *. now rewrite signedBytes_with_signature in Hs.
        -- rewrite heap_set_other in * by exact Hxa. now split.
      * rewrite (proj2 (Hheap x) Hout). subst st1; simpl. split.
        -- intros [<- | Hin]; [|contradiction].
           rewrite heap_set_same. exists sig, (world st), w1. now split.
        -- intros H. apply heap_set_other. intros ->. apply H. now left.
    + destruct (Promise_all _ _) as [? ?]. discriminate.
Qed.

(** C2.  After a successful [rotateKeys], every member of the organization,
    Suspended or not, carries a signature that the provider made with the new
    private key over the member's id, email, role byte and public key, which
    are what they were.  With a provider whose generated key pairs match,
    each member verifies under the new public key; and where signatures of
    the new private key are refused under the old public key, verification
    of each member against the old public key fails with
    VERIFICATION_ERROR. *)
Theorem rotateKeys_resigns_every_member (force : bool) (st st' : State C W) :
  rotateKeys provider container marshalKeys force st = (Ok tt, st') ->
  sound_keys provider ->
  (forall privateKey, Org.privateKey (this st') = Some privateKey ->
                      refuses provider privateKey (Org.publicKey (this st))) ->
  exists privateKey,
    Org.privateKey (this st') = Some privateKey
    /\ Org.members (this st') = Org.members (this st)
    /\ forall m, In m (Org.members (this st)) ->
         (exists signature w w',
            heap st' m = OrgMember.with_signature (Some signature) (heap st m)
            /\ provider_sign provider privateKey (signedBytes (heap st' m))
                             (Org.signingParams (this st')) w = (Ok signature, w'))
         /\ verify provider (heap st') (this st') m = Ok tt
         /\ verify provider (heap st')
                   (Org.with_publicKey (Org.publicKey (this st)) (this st')) m
            = Throw (verification_failed (heap st' m)).
Proof.
  intros Hrun Hsound Hold.
  unfold rotateKeys in Hrun. unfold bind at 1 in Hrun.
  assert (Hpre : exists r, (if negb force then verifyAll provider None else ret tt) st = (r, st)).
  { destruct force; cbn [negb].
    - eexists. reflexivity.
    - pose proof (verifyAll_keeps_state None st) as K.
      destruct (verifyAll provider None st) as [r s]. simpl in K. subst s. eauto. }
  destruct Hpre as [r0 Hpre]. rewrite Hpre in Hrun.
  destruct r0 as [[]|e]; [|discriminate].
  unfold bind at 1 in Hrun.
  destruct (generateKeys provider container marshalKeys st) as [[[]|e] st1] eqn:G;
    [|discriminate].
  apply generateKeys_Ok in G as [ik [sk [pk [w [w' [Hgen [Hh1 Ht1]]]]]]].
  revert Hrun. run_method.
  destruct (container_updateAccessors _ _ _ _) as [[[[]|e] c] w2]; [|discriminate].
  match goal with |- context [Promise_all _ ?s] => set (st2 := s) end.
  destruct (Promise_all _ st2) as [[done|e] st3] eqn:P; [|discriminate].
  intros Hrun. injection Hrun as <-.
  assert (Hk : Org.privateKey (this st2) = Some sk) by (subst st2; simpl; now rewrite Ht1).
  destruct (sign_all sk _ st2 st3 done Hk P) as [Hthis Hheap].
  assert (Ht3 : this st3 = this st1) by (rewrite Hthis; reflexivity).
  exists sk. rewrite Ht3, Ht1. split; [reflexivity|]. split; [reflexivity|].
  intros m Hm.
  assert (Hm2 : In m (Org.members (this st1))) by (rewrite Ht1; exact Hm).
  destruct (proj1 (Hheap m) Hm2) as [sig [wa [wb [Hx Hs]]]].
  assert (Hh2 : heap st2 m = heap st m) by (subst st2; simpl; now rewrite Hh1).
  assert (Hp2 : Org.signingParams (this st2) = Org.signingParams (this st))
    by (subst st2; simpl; now rewrite Ht1).
  rewrite Hh2, Hp2 in *.
  assert (Hsig : OrgMember.signature (heap st3 m) = Some sig) by now rewrite Hx.
  assert (Hbytes : signedBytes (heap st3 m) = signedBytes (heap st m)) by now rewrite Hx.
  split; [|split].
  - exists sig, wa, wb. split; [exact Hx|]. now rewrite Hbytes.
  - apply (verify_accepted provider _ _ _ sig Hsig). rewrite Hbytes.
    apply (Hsound _ _ _ _ _ Hgen _ _ _ _ _ Hs).
  - apply (verify_refused provider _ _ _ sig Hsig). rewrite Hbytes.
    assert (Hk3 : Org.privateKey (this st3) = Some sk) by now rewrite Ht3, Ht1.
    apply (Hold sk Hk3 _ _ _ _ _ Hs).
Qed.

End KeyRotation.

(** * The provider to compute with *)

Lemma bytes_eqb_refl a : Demo.bytes_eqb a a = true.
Proof.
  induction a as [|x a IH]; simpl; [reflexivity|].
  rewrite IH. now rewrite (@Byte.byte_dec_lb x x eq_refl).
Qed.

Lemma bytes_eqb_length a : forall b, Demo.bytes_eqb a b = true -> List.length a = List.length b.
Proof.
  induction a as [|x a IH]; intros [|y b]; simpl; try discriminate; [reflexivity|].
  intros H. apply andb_true_iff in H as [_ H]. now rewrite (IH b H).
Qed.

Lemma Demo_sound_keys : sound_keys Demo.provider.
Proof.
  intros params w sk pk w' G message prm w0 signature w1 S.
  simpl in G, S. injection G as <- <- _. injection S as <- _.
  simpl. now rewrite bytes_eqb_refl.
Qed.

Lemma Demo_refuses n n' :
  n <> n' -> refuses Demo.provider ("s"%byte :: Demo.key_of n) ("p"%byte :: Demo.key_of n').
Proof.
  intros Hn message prm w signature w' S.
  simpl in S. injection S as <- _. cbn [provider_verify Demo.provider tl].
  destruct (Demo.bytes_eqb _ _) eqn:E; [|reflexivity].
  apply bytes_eqb_length in E. unfold Demo.key_of in E. simpl in E.
  rewrite ?length_app, ?repeat_length in E. lia.
Qed.

(** C2, on an organization of an Owner and a Suspended member whose key
    pair is the provider's first one. *)
Lemma rotateKeys_resigns_every_member_witness :
  let a := Demo.member "a" "a@x" None [] Owner in
  let b := Demo.member "b" "b@x" None [] Suspended in
  let signed m := OrgMember.with_signature (Some (Demo.key_of 0 ++ signedBytes m)) m in
  let o := Demo.org ("p"%byte :: Demo.key_of 0) (Some ("s"%byte :: Demo.key_of 0))
             [0; 1] [] [] in
  let st := Demo.state (Demo.heap_of [signed a; b]) o 5 in
  let st' := snd (rotateKeys Demo.provider Demo.container Demo.marshalKeys false st) in
  exists privateKey,
    Org.privateKey (this st') = Some privateKey
    /\ Org.members (this st') = Org.members (this st)
    /\ forall m, In m (Org.members (this st)) ->
         (exists signature w w',
            heap st' m = OrgMember.with_signature (Some signature) (heap st m)
            /\ provider_sign Demo.provider privateKey (signedBytes (heap st' m))
                             (Org.signingParams (this st')) w = (Ok signature, w'))
         /\ verify Demo.provider (heap st') (this st') m = Ok tt
         /\ verify Demo.provider (heap st')
                   (Org.with_publicKey (Org.publicKey (this st)) (this st')) m
            = Throw (verification_failed (heap st' m)).
Proof.
  intros a b signed o st st'.
  apply (rotateKeys_resigns_every_member Demo.provider Demo.container Demo.marshalKeys
           false st st').
  - reflexivity.
  - exact Demo_sound_keys.
  - intros privateKey H. vm_compute in H. injection H as <-.
    apply (Demo_refuses 6 0). lia.
Defined.

(** C1, on an organization whose second member carries a signature that
    does not check out and whose third member is Suspended and unsigned. *)
Lemma rotateKeys_aborts_on_failed_verification_witness :
  let a := Demo.member "a" "a@x" None [] Owner in
  let signed := OrgMember.with_signature (Some (Demo.key_of 0 ++ signedBytes a)) a in
  let forged := Demo.member "b" "b@x" (Some [x00]) [] Member in
  let idle := Demo.member "c" "c@x" None [] Suspended in
  let o := Demo.org ("p"%byte :: Demo.key_of 0) (Some ("s"%byte :: Demo.key_of 0))
             [0; 1; 2] [] [] in
  let st := Demo.state (Demo.heap_of [signed; forged; idle]) o 5 in
  exists e m,
    In m (Org.members (this st))
    /\ OrgMember.role (heap st m) <> Suspended
    /\ verify Demo.provider (heap st) (this st) m = Throw e
    /\ rotateKeys Demo.provider Demo.container Demo.marshalKeys false st = (Throw e, st).
Proof.
  intros a signed forged idle o st.
  apply (rotateKeys_aborts_on_failed_verification Demo.provider Demo.container
           Demo.marshalKeys st).
  exists 1. split; [simpl; right; left; reflexivity|].
  split; [simpl; discriminate|].
  intros H. vm_compute in H. discriminate H.
Defined.

(** * Signing and verifying *)

Section SignVerify.
Context {C W : Type}.
Variable provider : CryptoProvider W.

(** C3.  In an organization whose private and public key match, a [sign]
    that returns is followed by a [verify] that succeeds: the signature
    stored on the member is the provider's signature over the byte
    concatenation of id, email, role byte and public key, which is the
    message [verify] checks it against. *)
Theorem verify_after_sign (st st' : State C W) (member member' : Ref) :
  (forall privateKey, Org.privateKey (this st) = Some privateKey ->
                      accepts provider privateKey (Org.publicKey (this st))) ->
  sign provider member st = (Ok member', st') ->
  member' = member
  /\ (exists privateKey signature w w',
        Org.privateKey (this st') = Some privateKey
        /\ OrgMember.signature (heap st' member) = Some signature
        /\ provider_sign provider privateKey
             (concatBytes [ stringToBytes (OrgMember.id (heap st' member));
                            stringToBytes (OrgMember.email (heap st' member));
                            Uint8Array_of (OrgRole_value (OrgMember.role (heap st' member)));
                            OrgMember.publicKey (heap st' member) ])
             (Org.signingParams (this st')) w = (Ok signature, w'))
  /\ verify provider (heap st') (this st') member = Ok tt.
Proof.
  intros Hpair Hsign.
  destruct (Org.privateKey (this st)) as [sk|] eqn:Hk.
  - rewrite (sign_unlocked provider member st sk Hk) in Hsign.
    destruct (provider_sign provider sk _ _ _) as [[sig|e] w1] eqn:S; [|discriminate].
    injection Hsign as <- <-. simpl.
    rewrite heap_set_same. split; [reflexivity|]. split.
    + exists sk, sig, (world st), w1. auto.
    + apply (verify_accepted provider _ _ _ sig).
      * now rewrite heap_set_same.
      * rewrite heap_set_same, signedBytes_with_signature.
        apply (Hpair sk eq_refl _ _ _ _ _ S).
  - rewrite (sign_locked provider member st Hk) in Hsign. discriminate.
Qed.

(** C8, as the code has it.  On a locked organization [sign] throws
    "Organisation needs to be unlocked first." and leaves the state, the
    outside world included, as it was.  [verify] needs no private key: on
    the same organization a member without a signature gets
    VERIFICATION_ERROR "No signed public key provided!", and a member with
    one gets what the provider's check of it under the public key gives,
    VERIFICATION_ERROR with the member's name in the message when the check
    says no. *)
Theorem sign_and_verify_when_locked (st : State C W) (member : Ref) :
  Org.privateKey (this st) = None ->
  sign provider member st
  = (Throw (ThrowString "Organisation needs to be unlocked first."), st)
  /\ verify provider (heap st) (this st) member
     = match OrgMember.signature (heap st member) with
       | None => Throw (ThrowErr VERIFICATION_ERROR "No signed public key provided!")
       | Some signature =>
           match provider_verify provider (Org.publicKey (this st)) signature
                                 (signedBytes (heap st member))
                                 (Org.signingParams (this st)) with
           | Ok true => Ok tt
           | Ok false =>
               Throw (ThrowErr VERIFICATION_ERROR
                        ("Failed to verify public key of "
                         ++ OrgMember.name (heap st member) ++ "!")%string)
           | Throw e => Throw e
           end
       end.
Proof.
  intros Hk. split; [now apply sign_locked|].
  unfold verify. destruct (OrgMember.signature _); [|reflexivity].
  now destruct (provider_verify _ _ _ _ _) as [[]|].
Qed.

End SignVerify.

(** C3, signing the first sample member in an unlocked organization. *)
Lemma verify_after_sign_witness :
  let o := Demo.org ("p"%byte :: Demo.key_of 0) (Some ("s"%byte :: Demo.key_of 0)) [0] [] [] in
  let st := Demo.state (Demo.heap_of [Demo.member "a" "a@x" None [] Member]) o 1 in
  let st' := snd (sign Demo.provider 0 st) in
  verify Demo.provider (heap st') (this st') 0 = Ok tt.
Proof.
  intros o st st'.
  refine (proj2 (proj2 (verify_after_sign Demo.provider st st' 0 0 _ _))).
  - intros privateKey H. injection H as <-.
    intros message prm w signature w' S. simpl in S. injection S as <- _.
    simpl. now rewrite bytes_eqb_refl.
  - reflexivity.
Defined.

(** C8 as stated fails: on a locked organization [verify] of a properly
    signed member succeeds, and the error for a member without a signature
    does not carry the member's name. *)
Lemma verify_when_locked_counterexample :
  let a := Demo.member "a" "a@x" None [] Member in
  let signed := OrgMember.with_signature (Some (Demo.key_of 0 ++ signedBytes a)) a in
  let o := Demo.org ("p"%byte :: Demo.key_of 0) None [0; 1] [] [] in
  let h := Demo.heap_of [signed; Demo.member "b" "b@x" None [] Member] in
  Org.privateKey o = None
  /\ verify Demo.provider h o 0 = Ok tt
  /\ OrgMember.name (h 1) = "Alice"
  /\ verify Demo.provider h o 1
     = Throw (ThrowErr VERIFICATION_ERROR "No signed public key provided!").
Proof. repeat split. Qed.

(** C8 as the code has it, on a locked organization with a signed member,
    a member whose signature is wrong and a member without one. *)
Lemma sign_and_verify_when_locked_witness :
  let a := Demo.member "a" "a@x" None [] Member in
  let signed := OrgMember.with_signature (Some (Demo.key_of 0 ++ signedBytes a)) a in
  let forged := OrgMember.with_signature (Some [x00]) a in
  let o := Demo.org ("p"%byte :: Demo.key_of 0) None [0; 1; 2] [] [] in
  let st := Demo.state (Demo.heap_of [signed; forged; a]) o 0 in
  (sign Demo.provider 0 st
   = (Throw (ThrowString "Organisation needs to be unlocked first."), st)
   /\ verify Demo.provider (heap st) (this st) 0 = Ok tt)
  /\ verify Demo.provider (heap st) (this st) 1
     = Throw (ThrowErr VERIFICATION_ERROR "Failed to verify public key of Alice!")
  /\ verify Demo.provider (heap st) (this st) 2
     = Throw (ThrowErr VERIFICATION_ERROR "No signed public key provided!").
Proof.
  intros a signed forged o st.
  assert (L : Org.privateKey (this st) = None) by reflexivity.
  split; [|split].
  - destruct (sign_and_verify_when_locked Demo.provider st 0 L) as [S V].
    split; [exact S | rewrite V; reflexivity].
  - rewrite (proj2 (sign_and_verify_when_locked Demo.provider st 1 L)). reflexivity.
  - rewrite (proj2 (sign_and_verify_when_locked Demo.provider st 2 L)). reflexivity.
Defined.

(** * Locking *)

(** [lock] always returns; it erases the two secret keys, hands the
    container part to [super.lock] and leaves the list of invites, and each
    invite in it, as it was. *)
Lemma lock_spec {C W} (container : SharedContainer C W) (st : State C W) :
  exists st',
    lock container st = (Ok tt, st')
    /\ Org.privateKey (this st') = None
    /\ Org.invitesKey (this st') = None
    /\ Org.publicKey (this st') = Org.publicKey (this st)
    /\ Org.invites (this st') = Org.invites (this st)
    /\ super st' = container_lock container (super st)
    /\ heap st' = heap st.
Proof.
  eexists. split; [reflexivity|]. simpl. repeat split.
  apply map_id.
Qed.

(** C7.  On an unlocked organization holding one unlocked invite, [lock]
    erases the private key and the invites key, and the invite still holds
    its secret afterwards: it has not been locked. *)
Theorem lock_leaves_invites_unlocked :
  let invite := Invite.mk "i" (Some [x01]) in
  let o := Demo.org ("p"%byte :: Demo.key_of 0) (Some ("s"%byte :: Demo.key_of 0))
             [] [] [invite] in
  let st := Demo.state (Demo.heap_of []) o 0 in
  let st' := snd (lock Demo.container st) in
  Org.privateKey (this st) <> None
  /\ fst (lock Demo.container st) = Ok tt
  /\ Org.privateKey (this st') = None
  /\ Org.invitesKey (this st') = None
  /\ Org.invites (this st') = [invite]
  /\ forallb Invite.locked (Org.invites (this st')) = false
  /\ forallb Invite.locked (map Invite.lock (Org.invites (this st))) = true.
Proof. repeat split. discriminate. Qed.

(** * What the signature binds *)

(** C9.  The signed bytes do not say where the id ends and the email
    begins.  A member with id "ab" and email "c" and one with id "a" and
    email "bc" have the same signed bytes, so under every provider [verify]
    answers the same for both when they carry the same signature; with the
    provider to compute with, the member signed as ("ab", "c") still verifies
    after its id and email have been changed to ("a", "bc"). *)
Theorem verify_misses_id_email_change :
  let m1 signature := Demo.member "ab" "c" signature [] Member in
  let m2 signature := Demo.member "a" "bc" signature [] Member in
  (forall s, (OrgMember.id (m1 s), OrgMember.email (m1 s))
             <> (OrgMember.id (m2 s), OrgMember.email (m2 s)))
  /\ (forall s, signedBytes (m1 s) = signedBytes (m2 s))
  /\ (forall W (p : CryptoProvider W) (h : Heap) (o : Org.t) (r : Ref) s,
        verify p (heap_set h r (m2 s)) o r = verify p (heap_set h r (m1 s)) o r)
  /\ (let o := Demo.org ("p"%byte :: Demo.key_of 0) (Some ("s"%byte :: Demo.key_of 0))
                 [0] [] [] in
      let st := Demo.state (Demo.heap_of [m1 None]) o 1 in
      let st' := snd (sign Demo.provider 0 st) in
      let changed := heap_set (heap st') 0 (m2 (OrgMember.signature (heap st' 0))) in
      fst (sign Demo.provider 0 st) = Ok 0
      /\ verify Demo.provider (heap st') (this st') 0 = Ok tt
      /\ verify Demo.provider changed (this st') 0 = Ok tt).
Proof.
  intros m1 m2. split; [|split; [|split]].
  - intros s H. discriminate H.
  - reflexivity.
  - intros W p h o r s. apply verify_ext; now rewrite !heap_set_same.
  - repeat split.
Qed.

(** * More on the access resolver *)

Lemma find_first {A} (p : A -> bool) (l : list A) x :
  find p l = Some x ->
  exists pre post, l = pre ++ x :: post /\ p x = true /\ forall y, In y pre -> p y = false.
Proof.
  induction l as [|a l IH]; simpl; [discriminate|].
  destruct (p a) eqn:Pa.
  - intros E. injection E as <-. exists [], l. repeat split; [exact Pa | intros y []].
  - intros E. destruct (IH E) as [pre [post [-> [Px Hpre]]]].
    exists (a :: pre), post. repeat split; [exact Px|].
    intros y [<- | Hy]; [exact Pa | now apply Hpre].
Qed.

Lemma find_filter {A} (p q : A -> bool) (l : list A) :
  find p (filter q l) = find (fun x => q x && p x) l.
Proof.
  induction l as [|a l IH]; simpl; [reflexivity|].
  destruct (q a); simpl; [|exact IH]. now destruct (p a).
Qed.

Lemma find_ext_in {A} (p q : A -> bool) (l : list A) :
  (forall x, In x l -> p x = q x) -> find p l = find q l.
Proof.
  induction l as [|a l IH]; simpl; intros H; [reflexivity|].
  rewrite (H a (or_introl eq_refl)). destruct (q a); [reflexivity|].
  apply IH. intros x Hx. apply H. now right.
Qed.

Lemma NoDup_map_injective {A B} (f : A -> B) (l : list A) x y :
  NoDup (map f l) -> In x l -> In y l -> f x = f y -> x = y.
Proof.
  induction l as [|a l IH]; simpl; intros Hnd Hx Hy E; [contradiction|].
  inversion Hnd as [|? ? Hnotin Hnd']; subst.
  destruct Hx as [<- | Hx], Hy as [<- | Hy]; try reflexivity.
  - exfalso. apply Hnotin. rewrite E. now apply in_map.
  - exfalso. apply Hnotin. rewrite <- E. now apply in_map.
  - now apply IH.
Qed.

(** X1.  [getMember] is a lookup by id that answers with the first entry of
    [this.members] carrying the id: [undefined] means that no entry carries
    it, and an answer is preceded only by entries with other ids. *)
Theorem getMember_lookup (h : Heap) (o : Org.t) (acc : AccountID) :
  match getMember h o acc with
  | None => Forall (fun m => OrgMember.id (h m) <> acc) (Org.members o)
  | Some m =>
      exists pre post,
        Org.members o = pre ++ m :: post
        /\ OrgMember.id (h m) = acc
        /\ Forall (fun r => OrgMember.id (h r) <> acc) pre
  end.
Proof.
  unfold getMember.
  destruct (find _ (Org.members o)) as [m|] eqn:F.
  - apply find_first in F as [pre [post [E [Hm Hpre]]]].
    exists pre, post. repeat split; [exact E | now apply String.eqb_eq|].
    apply Forall_forall. intros r Hr. apply String.eqb_neq. now apply Hpre.
  - apply Forall_forall. intros m Hm. apply String.eqb_neq.
    exact (find_none _ _ F m Hm).
Qed.

(** X2.  [isOwner] is truthy exactly for an account whose member record has
    role Owner, [isAdmin] exactly for roles Owner and Admin; so every owner
    is an admin, and Member and Suspended are neither. *)
Theorem isOwner_isAdmin_roles (h : Heap) (o : Org.t) (acc : AccountID) :
  (JS.truthy (isOwner h o acc) = true
   <-> exists m, getMember h o acc = Some m /\ OrgMember.role (h m) = Owner)
  /\ (JS.truthy (isAdmin h o acc) = true
      <-> exists m, getMember h o acc = Some m
                    /\ (OrgMember.role (h m) = Owner \/ OrgMember.role (h m) = Admin)).
Proof.
  unfold isOwner, isAdmin.
  destruct (getMember h o acc) as [m|]; simpl.
  - split; split.
    + intros T. exists m. split; [reflexivity|].
      destruct (OrgMember.role (h m)); simpl in T; try discriminate; reflexivity.
    + intros [m' [E R]]. injection E as <-. now rewrite R.
    + intros T. exists m. split; [reflexivity|].
      destruct (OrgMember.role (h m)); simpl in T; try discriminate; auto.
    + intros [m' [E [R | R]]]; injection E as <-; now rewrite R.
  - split; split; try discriminate; intros [m [E _]]; discriminate.
Qed.

Lemma truthy_Some b : JS.truthy (Some b) = true <-> b = true.
Proof. destruct b; simpl; intuition discriminate. Qed.

Lemma vault_sources_assigned h o vault member :
  JS.some (fun vaults => JS.some (fun v => String.eqb (VaultAccess.id v) vault) vaults)
          (vault_sources h o member) = true
  <-> assigned vault (OrgMember.vaults (h member))
      \/ exists g, In g (Org.groups o) /\ contains g (OrgMember.id (h member))
                   /\ assigned vault (Group.vaults g).
Proof.
  unfold vault_sources, JS.some at 1. simpl. rewrite orb_true_iff.
  rewrite some_assigned, existsb_exists. split.
  - intros [H | [vs [Hvs Hw]]]; [now left | right].
    apply in_map_iff in Hvs as [g [<- Hg]].
    apply in_getGroupsForMember in Hg as [Hg Hc].
    exists g. repeat split; [exact Hg | exact Hc | now apply some_assigned].
  - intros [H | [g [Hg [Hc Hw]]]]; [now left | right].
    exists (Group.vaults g). split.
    + apply in_map, in_getGroupsForMember. now split.
    + now apply some_assigned.
Qed.

Lemma writable_assigned vault vaults : writable vault vaults -> assigned vault vaults.
Proof. intros [v [Hv [E _]]]. exists v. now split. Qed.

Lemma assigned_in_ids vault vaults :
  assigned vault vaults <-> In vault (map VaultAccess.id vaults).
Proof.
  unfold assigned. rewrite in_map_iff.
  split; intros [v H]; exists v; tauto.
Qed.

(** What makes [canRead] truthy. *)
Lemma canRead_iff h o vault acc :
  JS.truthy (canRead h o vault acc) = true
  <-> exists member,
        getMember h o acc = Some member
        /\ (assigned vault (OrgMember.vaults (h member))
            \/ exists g, In g (Org.groups o) /\ contains g acc
                         /\ assigned vault (Group.vaults g)).
Proof.
  unfold canRead.
  destruct (getMember h o acc) as [member|] eqn:G.
  - pose proof (getMember_Some h o acc member G) as [_ Hid].
    pose proof (vault_sources_assigned h o vault member) as Hsrc.
    rewrite Hid in Hsrc. rewrite truthy_Some, Hsrc. split.
    + intros Hw. exists member. auto.
    + intros [m [E Hw]]. injection E as <-. exact Hw.
  - split; [discriminate | intros [m [E _]]; discriminate].
Qed.

(** X3.  Whoever may write a vault may read it. *)
Theorem canWrite_implies_canRead (h : Heap) (o : Org.t) (vault : VaultID) (acc : AccountID) :
  JS.truthy (canWrite h o vault acc) = true ->
  JS.truthy (canRead h o vault acc) = true.
Proof.
  unfold canWrite, canRead.
  destruct (getMember h o acc) as [member|]; [|discriminate].
  rewrite truthy_Some_and. intros [_ Hw].
  apply vault_sources_writable in Hw.
  assert (R : JS.some (fun vaults =>
                         JS.some (fun v => String.eqb (VaultAccess.id v) vault) vaults)
                      (vault_sources h o member) = true).
  { apply vault_sources_assigned.
    destruct Hw as [Hw | [g [Hg [Hc Hw]]]].
    - left. now apply writable_assigned.
    - right. exists g. repeat split; [exact Hg | exact Hc | now apply writable_assigned]. }
  now apply truthy_Some.
Qed.

(** X3, for a member whose group grants write access. *)
Lemma canWrite_implies_canRead_witness :
  let h := Demo.heap_of [Demo.member "m" "m@x" None [] Member] in
  let o := Demo.org [] None [0]
             [Group.mk "g" [MemberRef.mk "m"] [VaultAccess.mk "v" false]] [] in
  JS.truthy (canRead h o "v" "m") = true.
Proof.
  intros h o. apply (canWrite_implies_canRead h o "v" "m"). reflexivity.
Defined.

(** X4.  [canRead] is truthy exactly when [getVaultsForMember] returns a
    list that contains the vault; the role plays no part, so a Suspended
    member still reads. *)
Theorem canRead_iff_getVaultsForMember (h : Heap) (o : Org.t) (vault : VaultID)
  (acc : AccountID) :
  JS.truthy (canRead h o vault acc) = true
  <-> exists vs, getVaultsForMember h o acc = Ok vs /\ In vault vs.
Proof.
  rewrite canRead_iff. unfold getVaultsForMember.
  destruct (getMember h o acc) as [member|] eqn:G.
  - pose proof (getMember_Some h o acc member G) as [_ Hid]. rewrite Hid.
    assert (K : forall v,
               In v (fold_left
                       (fun results group =>
                          fold_left
                            (fun results vault0 =>
                               JS.Set_add String.eqb (VaultAccess.id vault0) results)
                            (Group.vaults group) results)
                       (getGroupsForMember o acc)
                       (JS.Set_of String.eqb
                                  (map VaultAccess.id (OrgMember.vaults (h member)))))
               <-> assigned v (OrgMember.vaults (h member))
                   \/ exists g, In g (Org.groups o) /\ contains g acc
                                /\ assigned v (Group.vaults g)).
    { intros v.
      rewrite (Set_add_nested_In String.eqb String.eqb_eq Group.vaults VaultAccess.id).
      rewrite (Set_of_In String.eqb String.eqb_eq), <- assigned_in_ids. split.
      - intros [H | [g [b [Hg [Hb ->]]]]]; [now left | right].
        apply in_getGroupsForMember in Hg as [Hg Hc].
        exists g. repeat split; [exact Hg | exact Hc | now exists b].
      - intros [H | [g [Hg [Hc [b [Hb <-]]]]]]; [now left | right].
        exists g, b. repeat split; [|exact Hb]. apply in_getGroupsForMember. now split. }
    split.
    + intros [m [E Hw]]. injection E as <-. eexists. split; [reflexivity|]. now apply K.
    + intros [vs [E Hin]]. injection E as <-. exists member. split; [reflexivity|].
      now apply K.
  - split; [intros [m [E _]] | intros [vs [E _]]]; discriminate.
Qed.


Lemma in_getMembersForGroup h o g m :
  In m (getMembersForGroup h o g)
  <-> exists ref, In ref (Group.members g) /\ getMember h o (MemberRef.id ref) = Some m.
Proof.
  unfold getMembersForGroup. rewrite in_flat_map. split.
  - intros [ref [Hr Hm]]. exists ref. split; [exact Hr|].
    destruct (getMember h o (MemberRef.id ref)) as [r|]; simpl in Hm; [|contradiction].
    destruct Hm as [-> | []]. reflexivity.
  - intros [ref [Hr Hm]]. exists ref. split; [exact Hr|]. rewrite Hm. now left.
Qed.

Lemma getVaultsForMember_Some h o acc member :
  getMember h o acc = Some member ->
  exists vs,
    getVaultsForMember h o acc = Ok vs
    /\ forall v, In v vs
                 <-> assigned v (OrgMember.vaults (h member))
                     \/ exists g, In g (Org.groups o) /\ contains g acc
                                  /\ assigned v (Group.vaults g).
Proof.
  intros G. unfold getVaultsForMember. rewrite G.
  pose proof (getMember_Some h o acc member G) as [_ Hid]. rewrite Hid.
  eexists. split; [reflexivity|]. intros v.
  rewrite (Set_add_nested_In String.eqb String.eqb_eq Group.vaults VaultAccess.id).
  rewrite (Set_of_In String.eqb String.eqb_eq), <- assigned_in_ids. split.
  - intros [H | [g [b [Hg [Hb ->]]]]]; [now left | right].
    apply in_getGroupsForMember in Hg as [Hg Hc].
    exists g. repeat split; [exact Hg | exact Hc | now exists b].
  - intros [H | [g [Hg [Hc [b [Hb <-]]]]]]; [now left | right].
    exists g, b. repeat split; [|exact Hb]. apply in_getGroupsForMember. now split.
Qed.

Lemma unique_ids_getMember h o m :
  unique_ids h o -> In m (Org.members o) -> getMember h o (OrgMember.id (h m)) = Some m.
Proof.
  intros U Hm. unfold getMember.
  destruct (find _ (Org.members o)) as [m'|] eqn:F.
  - apply find_some in F as [Hm' E]. apply String.eqb_eq in E.
    f_equal. exact (NoDup_map_injective _ _ _ _ U Hm' Hm E).
  - pose proof (find_none _ _ F m Hm) as E. simpl in E.
    now rewrite String.eqb_refl in E.
Qed.

Lemma accessor_is_member h o vault m :
  In (Some m) (getAccessors h o vault) -> In m (Org.members o).
Proof.
  intros H. apply getAccessors_In in H as [[m' [E Hm]] | [g [ref [_ [_ E]]]]].
  - injection E as <-. now apply in_getMembersForVault in Hm as [Hm _].
  - symmetry in E. now apply getMember_Some in E as [E _].
Qed.

(** X5.  Every entry of [getAccessors(vault)] is either a member of the
    organization or [undefined]; an [undefined] entry comes from a group
    assigned to the vault that lists an id without a member record. *)
Theorem getAccessors_entries (h : Heap) (o : Org.t) (vault : VaultID) (x : option Ref) :
  In x (getAccessors h o vault) ->
  match x with
  | Some m => In m (Org.members o)
  | None =>
      exists g ref,
        In g (Org.groups o) /\ assigned vault (Group.vaults g)
        /\ In ref (Group.members g) /\ getMember h o (MemberRef.id ref) = None
  end.
Proof.
  intros H. apply getAccessors_In in H as [[m [-> Hm]] | [g [ref [Hg [Hr ->]]]]].
  - now apply in_getMembersForVault in Hm as [Hm _].
  - apply in_getGroupsForVault in Hg as [Hg Hv].
    destruct (getMember h o (MemberRef.id ref)) as [m|] eqn:G.
    + now apply getMember_Some in G as [G _].
    + exists g, ref. auto.
Qed.

(** X5, on a vault with one direct member and one group entry that
    resolves to nobody. *)
Lemma getAccessors_entries_witness :
  let h := Demo.heap_of [Demo.member "m" "m@x" None [VaultAccess.mk "v" true] Member] in
  let g := Group.mk "g" [MemberRef.mk "ghost"] [VaultAccess.mk "v" false] in
  let o := Demo.org [] None [0] [g] [] in
  In 0 (Org.members o)
  /\ exists g ref,
       In g (Org.groups o) /\ assigned "v" (Group.vaults g)
       /\ In ref (Group.members g) /\ getMember h o (MemberRef.id ref) = None.
Proof.
  intros h g o. split.
  - apply (getAccessors_entries h o "v" (Some 0)). simpl. now left.
  - apply (getAccessors_entries h o "v" None). simpl. right. now left.
Defined.

(** X6.  The members in the result of [getAccessors(vault)] are those that
    [getMembersForVault] lists together with those that [getMembersForGroup]
    lists for the groups of [getGroupsForVault]. *)
Theorem getAccessors_by_group (h : Heap) (o : Org.t) (vault : VaultID) (m : Ref) :
  In (Some m) (getAccessors h o vault)
  <-> In m (getMembersForVault h o vault)
      \/ exists g, In g (getGroupsForVault o vault) /\ In m (getMembersForGroup h o g).
Proof.
  rewrite getAccessors_In. split.
  - intros [[m' [E Hm]] | [g [ref [Hg [Hr E]]]]].
    + injection E as ->. now left.
    + right. exists g. split; [exact Hg|]. apply in_getMembersForGroup. exists ref. auto.
  - intros [Hm | [g [Hg Hm]]].
    + left. exists m. auto.
    + right. apply in_getMembersForGroup in Hm as [ref [Hr E]]. exists g, ref. auto.
Qed.

(** X7.  When member ids are unique, a member listed by
    [getAccessors(vault)] has the vault in its [getVaultsForMember]. *)
Theorem accessor_reaches_vault (h : Heap) (o : Org.t) (vault : VaultID) (m : Ref) :
  unique_ids h o ->
  In (Some m) (getAccessors h o vault) ->
  exists vs, getVaultsForMember h o (OrgMember.id (h m)) = Ok vs /\ In vault vs.
Proof.
  intros U H.
  pose proof (accessor_is_member h o vault m H) as Hm.
  pose proof (unique_ids_getMember h o m U Hm) as G.
  destruct (getVaultsForMember_Some h o _ m G) as [vs [E K]].
  exists vs. split; [exact E|]. apply K.
  apply getAccessors_In in H as [[m' [E' Hd]] | [g [ref [Hg [Hr E']]]]].
  - injection E' as <-. left. now apply in_getMembersForVault in Hd as [_ [_ Hd]].
  - right. apply in_getGroupsForVault in Hg as [Hg Hv].
    exists g. repeat split; [exact Hg | | exact Hv].
    exists ref. split; [exact Hr|]. symmetry in E'.
    now apply getMember_Some in E' as [_ E'].
Qed.

(** X7, for a Suspended member that reaches the vault through a group. *)
Lemma accessor_reaches_vault_witness :
  let h := Demo.heap_of [Demo.member "m" "m@x" None [] Suspended] in
  let g := Group.mk "g" [MemberRef.mk "m"] [VaultAccess.mk "v" true] in
  let o := Demo.org [] None [0] [g] [] in
  exists vs, getVaultsForMember h o (OrgMember.id (h 0)) = Ok vs /\ In "v" vs.
Proof.
  intros h g o. apply (accessor_reaches_vault h o "v" 0).
  - repeat constructor. intros [].
  - simpl. now left.
Defined.

(** X8.  When member ids are unique, a member that is not Suspended is
    listed by [getAccessors(vault)] as soon as [getVaultsForMember] reports
    the vault for it.  (For a Suspended member a direct assignment is
    reported by [getVaultsForMember] and skipped by [getAccessors].) *)
Theorem reachable_vault_lists_accessor
  (h : Heap) (o : Org.t) (vault : VaultID) (m : Ref) (vs : list VaultID) :
  unique_ids h o ->
  In m (Org.members o) ->
  OrgMember.role (h m) <> Suspended ->
  getVaultsForMember h o (OrgMember.id (h m)) = Ok vs ->
  In vault vs ->
  In (Some m) (getAccessors h o vault).
Proof.
  intros U Hm Hrole E Hin.
  pose proof (unique_ids_getMember h o m U Hm) as G.
  destruct (getVaultsForMember_Some h o _ m G) as [vs' [E' K]].
  rewrite E in E'. injection E' as <-.
  apply getAccessors_In. apply K in Hin as [Hd | [g [Hg [[ref [Hr Hid]] Hv]]]].
  - left. exists m. split; [reflexivity|]. apply in_getMembersForVault. auto.
  - right. exists g, ref. repeat split; [|exact Hr | now rewrite Hid].
    apply in_getGroupsForVault. now split.
Qed.

(** X8, for a member with a direct assignment. *)
Lemma reachable_vault_lists_accessor_witness :
  let h := Demo.heap_of [Demo.member "m" "m@x" None [VaultAccess.mk "v" true] Member] in
  let o := Demo.org [] None [0] [] [] in
  In (Some 0) (getAccessors h o "v").
Proof.
  intros h o. apply (reachable_vault_lists_accessor h o "v" 0 ["v"]).
  - repeat constructor. intros [].
  - simpl. now left.
  - simpl. discriminate.
  - reflexivity.
  - simpl. now left.
Defined.

(** X9.  [getGroup] finds a group by its name: when group names are unique,
    looking up the name of a group of the organization gives that group. *)
Theorem getGroup_lookup (o : Org.t) (g : Group.t) :
  NoDup (map Group.name (Org.groups o)) ->
  In g (Org.groups o) ->
  getGroup o (Group.name g) = Some g.
Proof.
  intros U Hg. unfold getGroup.
  destruct (find _ (Org.groups o)) as [g'|] eqn:F.
  - apply find_some in F as [Hg' E]. apply String.eqb_eq in E.
    f_equal. exact (NoDup_map_injective _ _ _ _ U Hg' Hg E).
  - pose proof (find_none _ _ F g Hg) as E. simpl in E.
    now rewrite String.eqb_refl in E.
Qed.

(** X9, on two groups. *)
Lemma getGroup_lookup_witness :
  let g1 := Group.mk "g1" [] [] in
  let g2 := Group.mk "g2" [MemberRef.mk "m"] [] in
  getGroup (Demo.org [] None [] [g1; g2] []) "g2" = Some g2.
Proof.
  intros g1 g2. apply (getGroup_lookup (Demo.org [] None [] [g1; g2] []) g2).
  - simpl. repeat constructor; simpl; intuition discriminate.
  - simpl. right. now left.
Defined.

(** X10.  [removeInvite] always returns; afterwards [getInvite] finds
    nothing under the removed id and what it found before under every
    other id, the remaining invites keep their order, and nothing but the
    list of invites has changed. *)
Theorem removeInvite_getInvite {C W} (st : State C W) (invite : Invite.t) (id : InviteID) :
  exists st',
    removeInvite invite st = (Ok tt, st')
    /\ getInvite (this st') id
       = (if String.eqb id (Invite.id invite) then None else getInvite (this st) id)
    /\ Org.invites (this st')
       = filter (fun inv => negb (String.eqb (Invite.id inv) (Invite.id invite)))
                (Org.invites (this st))
    /\ this st' = Org.with_invites (Org.invites (this st')) (this st)
    /\ heap st' = heap st /\ super st' = super st /\ world st' = world st.
Proof.
  eexists. split; [reflexivity|]. simpl. split; [|repeat split].
  unfold getInvite. simpl. rewrite find_filter.
  destruct (String.eqb id (Invite.id invite)) eqn:E.
  - apply String.eqb_eq in E. subst id.
    destruct (find _ (Org.invites (this st))) as [inv|] eqn:F; [|reflexivity].
    apply find_some in F as [_ F]. apply andb_true_iff in F as [F1 F2].
    rewrite F2 in F1. discriminate.
  - apply find_ext_in. intros inv _.
    destruct (String.eqb (Invite.id inv) id) eqn:E2; [|now rewrite andb_false_r].
    apply String.eqb_eq in E2. subst id. now rewrite E.
Qed.

(** * More on what the signature binds *)

Lemma length_stringToBytes s : List.length (stringToBytes s) = String.length s.
Proof.
  unfold stringToBytes, list_byte_of_string. rewrite length_map.
  induction s as [|c s IH]; simpl; [reflexivity | now rewrite IH].
Qed.

Lemma stringToBytes_injective s s' : stringToBytes s = stringToBytes s' -> s = s'.
Proof.
  unfold stringToBytes. intros E.
  rewrite <- (string_of_list_byte_of_string s), <- (string_of_list_byte_of_string s').
  now rewrite E.
Qed.

Lemma app_inj_length {A} (a a' b b' : list A) :
  List.length a = List.length a' -> a ++ b = a' ++ b' -> a = a' /\ b = b'.
Proof.
  revert a'. induction a as [|x a IH]; intros [|x' a']; simpl; try discriminate.
  - intros _ E. now split.
  - intros L E. injection L as L. injection E as -> E.
    destruct (IH a' L E) as [-> ->]. now split.
Qed.

Lemma role_byte_injective r r' :
  Uint8Array_of (OrgRole_value r) = Uint8Array_of (OrgRole_value r') -> r = r'.
Proof. destruct r, r'; intros E; try reflexivity; vm_compute in E; discriminate E. Qed.

Lemma signedBytes_fields (m m' : OrgMember.t) :
  String.length (OrgMember.id m) = String.length (OrgMember.id m') ->
  String.length (OrgMember.email m) = String.length (OrgMember.email m') ->
  signedBytes m = signedBytes m' ->
  signed_fields m = signed_fields m'.
Proof.
  intros Lid Lem E. unfold signedBytes, concatBytes in E. cbn [List.concat] in E.
  rewrite !app_nil_r in E.
  apply app_inj_length in E as [Eid E]; [|now rewrite !length_stringToBytes].
  apply app_inj_length in E as [Eem E]; [|now rewrite !length_stringToBytes].
  apply app_inj_length in E as [Erole Epk]; [|reflexivity].
  apply stringToBytes_injective in Eid, Eem. apply role_byte_injective in Erole.
  unfold signed_fields. now rewrite Eid, Eem, Erole, Epk.
Qed.

(** X11.  Between members whose ids have the same length and whose emails
    have the same length, the signed bytes determine id, email, role and
    public key. *)
Theorem signedBytes_injective (m m' : OrgMember.t) :
  String.length (OrgMember.id m) = String.length (OrgMember.id m') ->
  String.length (OrgMember.email m) = String.length (OrgMember.email m') ->
  signedBytes m = signedBytes m' ->
  signed_fields m = signed_fields m'.
Proof.
  intros Lid Lem E. unfold signedBytes, concatBytes in E. cbn [List.concat] in E.
  rewrite !app_nil_r in E.
  apply app_inj_length in E as [Eid E]; [|now rewrite !length_stringToBytes].
  apply app_inj_length in E as [Eem E]; [|now rewrite !length_stringToBytes].
  apply app_inj_length in E as [Erole Epk]; [|reflexivity].
  apply stringToBytes_injective in Eid, Eem. apply role_byte_injective in Erole.
  unfold signed_fields. now rewrite Eid, Eem, Erole, Epk.
Qed.

(** X11, on two records that agree on the four fields and differ in name
    and vaults. *)
Lemma signedBytes_injective_witness :
  let m := Demo.member "ab" "c@x" None [] Admin in
  let m' := OrgMember.mk "ab" "Bob" "c@x" [x01; x02] (Some [x09]) None
                         [VaultAccess.mk "v" false] Admin in
  signed_fields m = signed_fields m'.
Proof.
  intros m m'. apply (signedBytes_injective m m'); reflexivity.
Defined.

Section Binding.
Context {C W : Type}.
Variable provider : CryptoProvider W.

(** X12.  Under a provider that refuses a signature for any other message,
    once [sign] has returned, replacing the member by a record with the same
    signature whose id and email keep their lengths but whose id, email,
    role or public key differs makes [verify] throw VERIFICATION_ERROR with
    the member's name: a change of role alone, or of public key alone, is
    always caught. *)
Theorem verify_catches_change (st st' : State C W) (member r : Ref)
  (privateKey : bytes) (changed : OrgMember.t) :
  Org.privateKey (this st) = Some privateKey ->
  binds provider privateKey (Org.publicKey (this st)) ->
  sign provider member st = (Ok r, st') ->
  OrgMember.signature changed = OrgMember.signature (heap st' member) ->
  String.length (OrgMember.id changed) = String.length (OrgMember.id (heap st' member)) ->
  String.length (OrgMember.email changed)
  = String.length (OrgMember.email (heap st' member)) ->
  signed_fields changed <> signed_fields (heap st' member) ->
  verify provider (heap_set (heap st') member changed) (this st') member
  = Throw (verification_failed changed).
Proof.
  intros Hk Hb Hsign Hsig Lid Lem Hneq.
  rewrite (sign_unlocked provider member st privateKey Hk) in Hsign.
  destruct (provider_sign provider privateKey _ _ _) as [[sig|e] w1] eqn:S; [|discriminate].
  injection Hsign as _ <-. simpl in *.
  rewrite heap_set_same in *. simpl in Hsig.
  rewrite <- (heap_set_same (heap_set (heap st) member
                                      (OrgMember.with_signature (Some sig) (heap st member)))
                            member changed) at 2.
  apply (verify_refused provider _ _ _ sig).
  - now rewrite heap_set_same.
  - rewrite heap_set_same. apply (Hb _ _ _ _ _ _ S).
    intros E. apply Hneq. apply signedBytes_fields; [exact Lid | exact Lem |].
    now rewrite signedBytes_with_signature.
Qed.

(** X13.  [verify] looks at nothing but the signature, the id, the email,
    the role and the public key: two records that agree on these either
    both verify or both fail, whatever their names, vault assignments and
    [orgSignature]s are. *)
Theorem verify_ignores_unsigned_fields (h : Heap) (o : Org.t) (r : Ref) (m m' : OrgMember.t) :
  OrgMember.signature m' = OrgMember.signature m ->
  signed_fields m' = signed_fields m ->
  (verify provider (heap_set h r m') o r = Ok tt
   <-> verify provider (heap_set h r m) o r = Ok tt).
Proof.
  intros Hs Hf. unfold signed_fields in Hf. injection Hf as Hid Hem Hrole Hpk.
  assert (Hb : signedBytes m' = signedBytes m)
    by (unfold signedBytes; now rewrite Hid, Hem, Hrole, Hpk).
  unfold verify. rewrite !heap_set_same, Hs, Hb.
  destruct (OrgMember.signature m); [|reflexivity].
  destruct (provider_verify _ _ _ _ _) as [[]|]; split; intros H;
    try reflexivity; discriminate H.
Qed.

End Binding.

Lemma bytes_eqb_eq a : forall b, Demo.bytes_eqb a b = true -> a = b.
Proof.
  induction a as [|x a IH]; intros [|y b]; simpl; try discriminate; [reflexivity|].
  intros H. apply andb_true_iff in H as [Hx H].
  apply Byte.byte_dec_bl in Hx. now rewrite Hx, (IH b H).
Qed.

Lemma Demo_binds n :
  binds Demo.provider ("s"%byte :: Demo.key_of n) ("p"%byte :: Demo.key_of n).
Proof.
  intros message message' prm w signature w' S Hneq.
  simpl in S. injection S as <- _. cbn [provider_verify Demo.provider tl].
  destruct (Demo.bytes_eqb _ _) eqn:E; [|reflexivity].
  apply bytes_eqb_eq in E.
  change (Demo.key_of n ++ message = Demo.key_of n ++ message') in E.
  apply app_inv_head in E. now subst.
Qed.

(** X12, raising the role of a signed member from Member to Owner. *)
Lemma verify_catches_change_witness :
  let o := Demo.org ("p"%byte :: Demo.key_of 0) (Some ("s"%byte :: Demo.key_of 0)) [0] [] [] in
  let st := Demo.state (Demo.heap_of [Demo.member "a" "a@x" None [] Member]) o 1 in
  let st' := snd (sign Demo.provider 0 st) in
  let changed := Demo.member "a" "a@x" (OrgMember.signature (heap st' 0)) [] Owner in
  verify Demo.provider (heap_set (heap st') 0 changed) (this st') 0
  = Throw (verification_failed changed).
Proof.
  intros o st st' changed.
  apply (verify_catches_change Demo.provider st st' 0 0 ("s"%byte :: Demo.key_of 0) changed).
  - reflexivity.
  - exact (Demo_binds 0).
  - reflexivity.
  - reflexivity.
  - reflexivity.
  - reflexivity.
  - intros E. discriminate E.
Defined.

(** X13, renaming a signed member and granting it a vault. *)
Lemma verify_ignores_unsigned_fields_witness :
  let m := Demo.member "a" "a@x" (Some (Demo.key_of 0 ++ signedBytes
                                          (Demo.member "a" "a@x" None [] Member)))
                       [] Member in
  let m' := OrgMember.mk "a" "Mallory" "a@x" [x01; x02] (OrgMember.signature m) None
                         [VaultAccess.mk "v" false] Member in
  let o := Demo.org ("p"%byte :: Demo.key_of 0) None [0] [] [] in
  verify Demo.provider (heap_set (Demo.heap_of []) 0 m') o 0 = Ok tt
  <-> verify Demo.provider (heap_set (Demo.heap_of []) 0 m) o 0 = Ok tt.
Proof.
  intros m m' o.
  apply (verify_ignores_unsigned_fields Demo.provider (Demo.heap_of []) o 0 m m');
    reflexivity.
Defined.

(** * More on verification, locking and rotation *)

Section MoreLifecycle.
Context {C W : Type}.
Variable provider : CryptoProvider W.
Variable container : SharedContainer C W.
Variable marshalKeys : bytes -> bytes -> string.

(** X14.  [verifyAll(members)] returns normally exactly when every listed
    member verifies, the empty list included; it never changes the state;
    and without an argument it checks the members that are not Suspended. *)
Theorem verifyAll_iff (l : list Ref) (st : State C W) :
  (fst (verifyAll provider (Some l) st) = Ok tt
   <-> Forall (fun m => verify provider (heap st) (this st) m = Ok tt) l)
  /\ snd (verifyAll provider (Some l) st) = st
  /\ verifyAll provider None st
     = verifyAll provider (Some (nonSuspended (heap st) (this st))) st.
Proof.
  split; [|split; [apply verifyAll_keeps_state | reflexivity]].
  unfold verifyAll, bind, ret at 1.
  destruct (verify_each provider l st) as [r [-> [[[done ->] Hall] | [e [m [-> [Hm Hv]]]]]]];
    simpl.
  - split; [intros _; now apply Forall_forall | reflexivity].
  - split; [discriminate|]. intros F.
    rewrite Forall_forall in F. rewrite (F m Hm) in Hv. discriminate.
Qed.

(** X15.  After [lock], [verify] answers for every member what it answered
    before and the resolver decides as before, while [sign] and
    [addOrUpdateMember] throw "Organisation needs to be unlocked first."
    without changing anything. *)
Theorem lock_keeps_public_view (st : State C W) :
  let st' := snd (lock container st) in
  (forall m, verify provider (heap st') (this st') m = verify provider (heap st) (this st) m)
  /\ (forall vault acc,
        canRead (heap st') (this st') vault acc = canRead (heap st) (this st) vault acc
        /\ canWrite (heap st') (this st') vault acc = canWrite (heap st) (this st) vault acc
        /\ getVaultsForMember (heap st') (this st') acc
           = getVaultsForMember (heap st) (this st) acc
        /\ getAccessors (heap st') (this st') vault = getAccessors (heap st) (this st) vault)
  /\ (forall m, sign provider m st'
                = (Throw (ThrowString "Organisation needs to be unlocked first."), st'))
  /\ (forall fresh details,
        addOrUpdateMember provider fresh details st'
        = (Throw (ThrowString "Organisation needs to be unlocked first."), st')).
Proof.
  simpl. repeat split.
Qed.

End MoreLifecycle.

(** X16, on an organization of a signed Owner and an unsigned Suspended
    member. *)
Lemma rotateKeys_check_passes_witness :
  let a := Demo.member "a" "a@x" None [] Owner in
  let signed := OrgMember.with_signature (Some (Demo.key_of 0 ++ signedBytes a)) a in
  let idle := Demo.member "c" "c@x" None [] Suspended in
  let o := Demo.org ("p"%byte :: Demo.key_of 0) (Some ("s"%byte :: Demo.key_of 0))
             [0; 1] [] [] in
  let st := Demo.state (Demo.heap_of [signed; idle]) o 5 in
  rotateKeys Demo.provider Demo.container Demo.marshalKeys false st
  = rotateKeys Demo.provider Demo.container Demo.marshalKeys true st.
Proof.
  intros a signed idle o st.
  apply (rotateKeys_check_passes Demo.provider Demo.container Demo.marshalKeys st).
  intros m [<- | [<- | []]] Hr.
  - reflexivity.
  - exfalso. apply Hr. reflexivity.
Defined.

(** * What the resolver depends on *)

Lemma fold_left_ext_in {A B} (f g : A -> B -> A) (l : list B) :
  (forall a b, In b l -> f a b = g a b) -> forall a, fold_left f l a = fold_left g l a.
Proof.
  induction l as [|b l IH]; simpl; intros H a; [reflexivity|].
  rewrite (H a b (or_introl eq_refl)). apply IH. intros a' b' Hb'. apply H. now right.
Qed.

Section ResolverDependence.
Variables h h' : Heap.
Variables o o' : Org.t.
Hypothesis Hheap : same_access h h'.
Hypothesis Hmembers : Org.members o' = Org.members o.
Hypothesis Hgroups : Org.groups o' = Org.groups o.

Lemma getMember_same acc : getMember h' o' acc = getMember h o acc.
Proof.
  unfold getMember. rewrite Hmembers. apply find_ext_in. intros m _.
  now rewrite (proj1 (Hheap m)).
Qed.

Lemma getGroupsForMember_same id : getGroupsForMember o' id = getGroupsForMember o id.
Proof. unfold getGroupsForMember. now rewrite Hgroups. Qed.

Lemma getGroupsForVault_same id : getGroupsForVault o' id = getGroupsForVault o id.
Proof. unfold getGroupsForVault. now rewrite Hgroups. Qed.

Lemma getMembersForVault_same id : getMembersForVault h' o' id = getMembersForVault h o id.
Proof.
  unfold getMembersForVault. rewrite Hmembers. apply filter_ext. intros m.
  destruct (Hheap m) as [_ [-> ->]]. reflexivity.
Qed.

Lemma vault_sources_same member : vault_sources h' o' member = vault_sources h o member.
Proof.
  unfold vault_sources. destruct (Hheap member) as [-> [_ ->]].
  now rewrite getGroupsForMember_same.
Qed.

Lemma resolver_same vault acc :
  canRead h' o' vault acc = canRead h o vault acc
  /\ canWrite h' o' vault acc = canWrite h o vault acc
  /\ getVaultsForMember h' o' acc = getVaultsForMember h o acc
  /\ getAccessors h' o' vault = getAccessors h o vault
  /\ isOwner h' o' acc = isOwner h o acc
  /\ isAdmin h' o' acc = isAdmin h o acc.
Proof.
  unfold canRead, canWrite, getVaultsForMember, getAccessors, isOwner, isAdmin.
  rewrite getMember_same, getMembersForVault_same, getGroupsForVault_same.
  repeat split.
  - destruct (getMember h o acc) as [m|]; [|reflexivity]. now rewrite vault_sources_same.
  - destruct (getMember h o acc) as [m|]; [|reflexivity].
    rewrite vault_sources_same. now destruct (Hheap m) as [_ [-> _]].
  - destruct (getMember h o acc) as [m|]; [|reflexivity].
    destruct (Hheap m) as [-> [_ ->]]. now rewrite getGroupsForMember_same.
  - apply fold_left_ext_in. intros results g _.
    apply fold_left_ext_in. intros results' m _. now rewrite getMember_same.
  - destruct (getMember h o acc) as [m|]; [|reflexivity]. now destruct (Hheap m) as [_ [-> _]].
  - destruct (getMember h o acc) as [m|]; [|reflexivity]. now destruct (Hheap m) as [_ [-> _]].
Qed.

End ResolverDependence.

Section AccessKept.
Context {C W : Type}.

Lemma access_kept_refl (st : State C W) : access_kept st st.
Proof. repeat split. Qed.

Lemma access_kept_trans (st1 st2 st3 : State C W) :
  access_kept st1 st2 -> access_kept st2 st3 -> access_kept st1 st3.
Proof.
  intros [[M1 [G1 [I1 V1]]] H1] [[M2 [G2 [I2 V2]]] H2]. split.
  - repeat split; congruence.
  - intros r. destruct (H1 r) as [A1 [B1 D1]], (H2 r) as [A2 [B2 D2]].
    repeat split; congruence.
Qed.

Lemma keeps_bind {A B} (m : M C W A) (k : A -> M C W B) :
  keeps_access m -> (forall a, keeps_access (k a)) -> keeps_access (bind m k).
Proof.
  intros Hm Hk st. unfold bind. specialize (Hm st).
  destruct (m st) as [[a|e] st1]; simpl in *; [|exact Hm].
  exact (access_kept_trans _ _ _ Hm (Hk a st1)).
Qed.

Lemma keeps_unchanged {A} (m : M C W A) : (forall st, snd (m st) = st) -> keeps_access m.
Proof. intros H st. rewrite H. apply access_kept_refl. Qed.

Lemma keeps_await_provider {A} (call : W -> Result A * W) :
  keeps_access (await_provider (C := C) call).
Proof. intros st. unfold await_provider. destruct (call (world st)). repeat split. Qed.

Lemma keeps_await_container (call : C -> W -> Result unit * C * W) :
  keeps_access (await_container call).
Proof.
  intros st. unfold await_container. destruct (call (super st) (world st)) as [[r c] w].
  repeat split.
Qed.

Lemma keeps_modify_this (f : Org.t -> Org.t) :
  (forall o, same_registries o (f o)) -> keeps_access (modify_this (C := C) (W := W) f).
Proof. intros H st. split; [apply H | intros r; repeat split]. Qed.

Lemma keeps_Promise_all {A} (ps : list (M C W A)) :
  Forall keeps_access ps -> keeps_access (Promise_all ps).
Proof.
  induction ps as [|p ps IH]; intros H st.
  - apply access_kept_refl.
  - inversion H as [|? ? Hp Hps]; subst. rewrite Promise_all_cons.
    specialize (Hp st). destruct (p st) as [r st1]. simpl in Hp.
    specialize (IH Hps st1). destruct (Promise_all ps st1) as [rs st2]. simpl in *.
    exact (access_kept_trans _ _ _ Hp IH).
Qed.

Lemma keeps_sign (provider : CryptoProvider W) (member : Ref) :
  keeps_access (sign (C := C) provider member).
Proof.
  intros st. destruct (Org.privateKey (this st)) as [sk|] eqn:Hk.
  - rewrite (sign_unlocked provider member st sk Hk).
    destruct (provider_sign provider sk _ _ _) as [[sig|e] w]; simpl;
      [|repeat split].
    split; [repeat split|]. intros r. simpl. unfold heap_set.
    destruct (Nat.eqb r member) eqn:E; [|repeat split].
    apply Nat.eqb_eq in E. subst r. repeat split.
  - rewrite (sign_locked provider member st Hk). apply access_kept_refl.
Qed.

Lemma keeps_generateKeys (provider : CryptoProvider W) (container : SharedContainer C W)
  (marshalKeys : bytes -> bytes -> string) :
  keeps_access (generateKeys provider container marshalKeys).
Proof.
  unfold generateKeys.
  apply keeps_bind; [apply keeps_await_provider | intros ik].
  apply keeps_bind; [apply keeps_modify_this; intros o0; repeat split | intros _].
  apply keeps_bind; [apply keeps_await_provider | intros [sk pk]].
  apply keeps_bind; [apply keeps_modify_this; intros o0; repeat split | intros _].
  apply keeps_bind; [apply keeps_modify_this; intros o0; repeat split | intros _].
  apply keeps_await_container.
Qed.

Lemma keeps_rotateKeys (provider : CryptoProvider W) (container : SharedContainer C W)
  (marshalKeys : bytes -> bytes -> string) (force : bool) :
  keeps_access (rotateKeys provider container marshalKeys force).
Proof.
  unfold rotateKeys.
  apply keeps_bind; [|intros _].
  { destruct force; simpl.
    - apply keeps_unchanged. reflexivity.
    - apply keeps_unchanged. apply verifyAll_keeps_state. }
  apply keeps_bind; [apply keeps_generateKeys | intros _].
  apply keeps_bind; [intros st; repeat split | intros _].
  apply keeps_bind; [apply keeps_unchanged; reflexivity | intros owners].
  apply keeps_bind; [apply keeps_await_container | intros _].
  apply keeps_bind; [apply keeps_unchanged; reflexivity | intros members].
  apply keeps_bind; [|intros _; apply keeps_unchanged; reflexivity].
  apply keeps_Promise_all. apply Forall_forall. intros p Hp.
  apply in_map_iff in Hp as [each [<- _]]. apply keeps_sign.
Qed.

(** X17.  However [rotateKeys] ends, with or without [force], it changes no
    access decision: the members, groups and invites are the same lists, and
    [canRead], [canWrite], [getVaultsForMember], [getAccessors], [isOwner]
    and [isAdmin] answer as before. *)
Theorem rotateKeys_keeps_access (provider : CryptoProvider W)
  (container : SharedContainer C W) (marshalKeys : bytes -> bytes -> string)
  (force : bool) (st : State C W) (vault : VaultID) (acc : AccountID) :
  let st' := snd (rotateKeys provider container marshalKeys force st) in
  same_registries (this st) (this st')
  /\ canRead (heap st') (this st') vault acc = canRead (heap st) (this st) vault acc
  /\ canWrite (heap st') (this st') vault acc = canWrite (heap st) (this st) vault acc
  /\ getVaultsForMember (heap st') (this st') acc = getVaultsForMember (heap st) (this st) acc
  /\ getAccessors (heap st') (this st') vault = getAccessors (heap st) (this st) vault
  /\ isOwner (heap st') (this st') acc = isOwner (heap st) (this st) acc
  /\ isAdmin (heap st') (this st') acc = isAdmin (heap st) (this st) acc.
Proof.
  intros st'.
  destruct (keeps_rotateKeys provider container marshalKeys force st)
    as [[Hm [Hg [Hi Hv]]] Hh].
  fold st' in Hm, Hg, Hi, Hv, Hh.
  split; [repeat split; assumption|].
  exact (resolver_same (heap st) (heap st') (this st) (this st') Hh Hm Hg vault acc).
Qed.

End AccessKept.

(** * Failures in the middle of a rotation *)

Section RotationFailure.
Context {C W : Type}.
Variable provider : CryptoProvider W.
Variable container : SharedContainer C W.
Variable marshalKeys : bytes -> bytes -> string.

(** X18.  [rotateKeys] is not all-or-nothing: when the verification passes
    (or is skipped by [force]) and the provider then generates the invites
    key but rejects the generation of the key pair, [rotateKeys] throws the
    provider's error with the invites key already replaced; the key pair
    and the members are as before. *)
Theorem rotateKeys_partial_on_keygen_failure
  (force : bool) (st : State C W) (invitesKey : bytes) (w0 w1 : W) (e : Exn) :
  force = true
  \/ Forall (fun m => verify provider (heap st) (this st) m = Ok tt)
            (nonSuspended (heap st) (this st)) ->
  generateAESKey provider mkAESKeyParams (world st) = (Ok invitesKey, w0) ->
  generateRSAKey provider mkRSAKeyParams w0 = (Throw e, w1) ->
  rotateKeys provider container marshalKeys force st
  = (Throw e, mkState (heap st) (Org.with_invitesKey (Some invitesKey) (this st))
                      (super st) w1).
Proof.
  intros Hcheck HA HR.
  assert (Hpre : (if negb force then verifyAll provider None else ret tt) st = (Ok tt, st)).
  { destruct force; [reflexivity|]. cbn [negb].
    destruct Hcheck as [Hf | Hall]; [discriminate|].
    unfold verifyAll, bind, gets.
    destruct (verify_each provider (nonSuspended (heap st) (this st)) st)
      as [r [-> [[[done ->] _] | [e' [m [-> [Hm Hv]]]]]]]; [reflexivity|].
    rewrite Forall_forall in Hall. rewrite (Hall m Hm) in Hv. discriminate. }
  unfold rotateKeys. unfold bind at 1. rewrite Hpre.
  unfold bind at 1.
  assert (G : generateKeys provider container marshalKeys st
              = (Throw e, mkState (heap st) (Org.with_invitesKey (Some invitesKey) (this st))
                                  (super st) w1)).
  { unfold generateKeys. run_method. rewrite HA. simpl. now rewrite HR. }
  now rewrite G.
Qed.

End RotationFailure.

(** X18, with a provider that has no key pair to give. *)
Lemma rotateKeys_partial_on_keygen_failure_witness :
  let failing :=
    mkCryptoProvider nat
      (fun _ w => (Ok [x0a], S w))
      (fun _ w => (Throw (ProviderFailure "no key pair"), w))
      (fun privateKey message _ w => (Ok (tl privateKey ++ message), w))
      (fun publicKey signature message _ =>
         Ok (Demo.bytes_eqb signature (tl publicKey ++ message))) in
  let o := Demo.org ("p"%byte :: Demo.key_of 0) (Some ("s"%byte :: Demo.key_of 0))
             [0] [] [] in
  let st := Demo.state (Demo.heap_of [Demo.member "a" "a@x" None [] Owner]) o 5 in
  rotateKeys failing Demo.container Demo.marshalKeys true st
  = (Throw (ProviderFailure "no key pair"),
     mkState (heap st) (Org.with_invitesKey (Some [x0a]) (this st)) (super st) 6).
Proof.
  intros failing o st.
  apply (rotateKeys_partial_on_keygen_failure failing Demo.container Demo.marshalKeys
           true st [x0a] 6 6 (ProviderFailure "no key pair")).
  - now left.
  - reflexivity.
  - reflexivity.
Defined.

(** * Adding and updating members *)

Lemma find_app_last {A} (p : A -> bool) (l : list A) (x : A) :
  find p (l ++ [x])
  = match find p l with
    | Some y => Some y
    | None => if p x then Some x else None
    end.
Proof.
  induction l as [|a l IH]; simpl; [reflexivity|].
  now destruct (p a).
Qed.

Section MembershipFacts.
Context {C W : Type}.
Variable provider : CryptoProvider W.
Variable container : SharedContainer C W.
Variable marshalKeys : bytes -> bytes -> string.
Variable signOrg : Account.t -> Org.t -> W -> Result bytes * W.

Lemma addOrUpdateMember_locked fresh details (st : State C W) :
  Org.privateKey (this st) = None ->
  addOrUpdateMember provider fresh details st
  = (Throw (ThrowString "Organisation needs to be unlocked first."), st).
Proof. intros H. unfold addOrUpdateMember. run_method. now rewrite H. Qed.

Lemma addOrUpdateMember_unlocked fresh details (st : State C W) privateKey :
  Org.privateKey (this st) = Some privateKey ->
  addOrUpdateMember provider fresh details st
  = match getMember (heap st) (this st) (MemberDetails.id details) with
    | Some existing =>
        let m1 := assigned_details details (heap st existing) in
        match provider_sign provider privateKey (signedBytes m1)
                            (Org.signingParams (this st)) (world st) with
        | (Ok signature, w) =>
            (Ok tt,
             mkState (heap_set (heap_set (heap st) existing m1) existing
                               (OrgMember.with_signature (Some signature) m1))
                     (this st) (super st) w)
        | (Throw e, w) =>
            (Throw e, mkState (heap_set (heap st) existing m1) (this st) (super st) w)
        end
    | None =>
        let m1 := new_details details in
        match provider_sign provider privateKey (signedBytes m1)
                            (Org.signingParams (this st)) (world st) with
        | (Ok signature, w) =>
            (Ok tt,
             mkState (heap_set (heap_set (heap st) fresh m1) fresh
                               (OrgMember.with_signature (Some signature) m1))
                     (Org_push_member fresh (this st)) (super st) w)
        | (Throw e, w) =>
            (Throw e, mkState (heap_set (heap st) fresh m1) (this st) (super st) w)
        end
    end.
Proof.
  intros Hk. unfold addOrUpdateMember, getMember.
  unfold bind at 1, gets at 1. rewrite Hk.
  unfold bind at 1, gets at 1.
  destruct (find _ (Org.members (this st))) as [existing|].
  - unfold bind at 1, update_member at 1.
    unfold bind at 1.
    match goal with |- context [sign provider existing ?s] => set (st1 := s) end.
    rewrite (sign_unlocked provider existing st1 privateKey Hk).
    subst st1. cbn [heap this super world]. rewrite heap_set_same.
    fold (assigned_details details (heap st existing)).
    now destruct (provider_sign provider privateKey _ _ _) as [[sig|e] w].
  - unfold bind at 1, new_OrgMember at 1.
    unfold bind at 1.
    match goal with |- context [sign provider fresh ?s] => set (st1 := s) end.
    rewrite (sign_unlocked provider fresh st1 privateKey Hk).
    subst st1. cbn [heap this super world]. rewrite heap_set_same.
    fold (new_details details).
    now destruct (provider_sign provider privateKey _ _ _) as [[sig|e] w].
Qed.

End MembershipFacts.

Section MembershipTheorems.
Context {C W : Type}.
Variable provider : CryptoProvider W.

(** X19.  In an unlocked organization with a matching key pair,
    [addOrUpdateMember] with an id that no member has, when it returns,
    has appended one new member: [getMember] finds it under the id, it
    carries the given details, the role given or else Member, no vaults, and
    a signature under which it verifies; every other object is untouched. *)
Theorem addOrUpdateMember_adds (fresh : Ref) (details : MemberDetails.t)
  (st st' : State C W) (privateKey : bytes) :
  Org.privateKey (this st) = Some privateKey ->
  accepts provider privateKey (Org.publicKey (this st)) ->
  getMember (heap st) (this st) (MemberDetails.id details) = None ->
  ~ In fresh (Org.members (this st)) ->
  addOrUpdateMember provider fresh details st = (Ok tt, st') ->
  Org.members (this st') = Org.members (this st) ++ [fresh]
  /\ getMember (heap st') (this st') (MemberDetails.id details) = Some fresh
  /\ (exists signature,
        heap st' fresh
        = OrgMember.mk (MemberDetails.id details) (MemberDetails.name details)
                       (MemberDetails.email details) (MemberDetails.publicKey details)
                       (Some signature) (Some (MemberDetails.orgSignature details)) []
                       (match MemberDetails.role details with
                        | Some r => r
                        | None => Member
                        end))
  /\ verify provider (heap st') (this st') fresh = Ok tt
  /\ forall r, r <> fresh -> heap st' r = heap st r.
Proof.
  intros Hk Hacc Hnew Hfresh Hrun.
  rewrite (addOrUpdateMember_unlocked provider fresh details st privateKey Hk), Hnew in Hrun.
  cbv zeta in Hrun.
  destruct (provider_sign provider privateKey _ _ _) as [[sig|e] w] eqn:S; [|discriminate].
  injection Hrun as <-. cbn [heap this super world].
  assert (Hother : forall r, r <> fresh ->
            heap_set (heap_set (heap st) fresh (new_details details)) fresh
                     (OrgMember.with_signature (Some sig) (new_details details)) r
            = heap st r).
  { intros r Hr. now rewrite !heap_set_other by exact Hr. }
  split; [reflexivity|]. split; [|split; [|split]].
  - unfold getMember. cbn [Org.members Org_push_member]. rewrite find_app_last.
    rewrite (find_ext_in _ (fun m => String.eqb (OrgMember.id (heap st m))
                                                (MemberDetails.id details))).
    + unfold getMember in Hnew. rewrite Hnew, heap_set_same. simpl.
      now rewrite String.eqb_refl.
    + intros m Hm. rewrite Hother; [reflexivity|]. intros ->. contradiction.
  - exists sig. now rewrite heap_set_same.
  - apply (verify_accepted provider _ _ _ sig).
    + now rewrite heap_set_same.
    + rewrite heap_set_same, signedBytes_with_signature.
      exact (Hacc _ _ _ _ _ S).
  - exact Hother.
Qed.

(** X20.  In an unlocked organization with a matching key pair,
    [addOrUpdateMember] with the id of an existing member, when it returns,
    has changed that member in place: the list of members is the same, the
    member keeps its id and its vault assignments, carries the given name,
    email, public key, [orgSignature] and role, and has a new signature
    under which it verifies; every other object is untouched. *)
Theorem addOrUpdateMember_updates (fresh existing : Ref) (details : MemberDetails.t)
  (st st' : State C W) (privateKey : bytes) :
  Org.privateKey (this st) = Some privateKey ->
  accepts provider privateKey (Org.publicKey (this st)) ->
  getMember (heap st) (this st) (MemberDetails.id details) = Some existing ->
  addOrUpdateMember provider fresh details st = (Ok tt, st') ->
  this st' = this st
  /\ (exists signature,
        heap st' existing
        = OrgMember.mk (MemberDetails.id details) (MemberDetails.name details)
                       (MemberDetails.email details) (MemberDetails.publicKey details)
                       (Some signature) (Some (MemberDetails.orgSignature details))
                       (OrgMember.vaults (heap st existing))
                       (match MemberDetails.role details with
                        | Some r => r
                        | None => Member
                        end))
  /\ verify provider (heap st') (this st') existing = Ok tt
  /\ forall r, r <> existing -> heap st' r = heap st r.
Proof.
  intros Hk Hacc Hex Hrun.
  pose proof (getMember_Some _ _ _ _ Hex) as [_ Hid].
  rewrite (addOrUpdateMember_unlocked provider fresh details st privateKey Hk), Hex in Hrun.
  cbv zeta in Hrun.
  destruct (provider_sign provider privateKey _ _ _) as [[sig|e] w] eqn:S; [|discriminate].
  injection Hrun as <-. cbn [heap this super world].
  split; [reflexivity|]. split; [|split].
  - exists sig. rewrite heap_set_same.
    unfold assigned_details, OrgMember_assign, OrgMember.with_signature. simpl.
    now rewrite Hid.
  - apply (verify_accepted provider _ _ _ sig).
    + now rewrite heap_set_same.
    + rewrite heap_set_same, signedBytes_with_signature.
      exact (Hacc _ _ _ _ _ S).
  - intros r Hr. now rewrite !heap_set_other by exact Hr.
Qed.

(** X21.  [addOrUpdateMember] keeps member ids unique: if no two members
    share an id before the call, none do after it, however it ends. *)
Theorem addOrUpdateMember_keeps_unique_ids (fresh : Ref) (details : MemberDetails.t)
  (st : State C W) :
  unique_ids (heap st) (this st) ->
  ~ In fresh (Org.members (this st)) ->
  let st' := snd (addOrUpdateMember provider fresh details st) in
  unique_ids (heap st') (this st').
Proof.
  intros U Hfresh st'. subst st'. unfold unique_ids in *.
  destruct (Org.privateKey (this st)) as [sk|] eqn:Hk.
  - rewrite (addOrUpdateMember_unlocked provider fresh details st sk Hk).
    destruct (getMember (heap st) (this st) (MemberDetails.id details)) as [existing|] eqn:G;
      cbv zeta.
    + assert (H1 : forall r, OrgMember.id (heap_set (heap st) existing
                                             (assigned_details details (heap st existing)) r)
                             = OrgMember.id (heap st r)).
      { intros r. unfold heap_set. destruct (Nat.eqb r existing) eqn:E; [|reflexivity].
        apply Nat.eqb_eq in E. now subst r. }
      destruct (provider_sign provider sk _ _ _) as [[sig|e] w]; cbn [snd heap this].
      * erewrite map_ext; [exact U|]. intros r. cbv beta. unfold heap_set at 1.
        destruct (Nat.eqb r existing) eqn:E; [|apply H1].
        apply Nat.eqb_eq in E. now subst r.
      * erewrite map_ext; [exact U|]. exact H1.
    + destruct (provider_sign provider sk _ _ _) as [[sig|e] w]; cbn [snd heap this].
      * cbn [Org.members Org_push_member]. rewrite map_app. cbn [map].
        rewrite heap_set_same.
        erewrite map_ext_in.
        2:{ intros m Hm. rewrite !heap_set_other by (intros ->; contradiction). reflexivity. }
        apply NoDup_app; [exact U | repeat constructor; intros [] |].
        intros a Ha [E | []]. apply in_map_iff in Ha as [m [E' Hm]].
        unfold getMember in G. pose proof (find_none _ _ G m Hm) as F. cbv beta in F.
        rewrite E', <- E in F. simpl in F. rewrite String.eqb_refl in F. discriminate.
      * erewrite map_ext_in; [exact U|].
        intros m Hm. cbv beta.
        rewrite heap_set_other by (intros ->; contradiction). reflexivity.
  - now rewrite (addOrUpdateMember_locked provider fresh details st Hk).
Qed.

End MembershipTheorems.

Lemma Demo_accepts n :
  accepts Demo.provider ("s"%byte :: Demo.key_of n) ("p"%byte :: Demo.key_of n).
Proof. exact (Demo_sound_keys mkRSAKeyParams n _ _ (S n) eq_refl). Qed.

(** X19, adding "b" to an organization that has "a". *)
Lemma addOrUpdateMember_adds_witness :
  let o := Demo.org ("p"%byte :: Demo.key_of 0) (Some ("s"%byte :: Demo.key_of 0)) [0] [] [] in
  let st := Demo.state (Demo.heap_of [Demo.member "a" "a@x" None [] Owner]) o 1 in
  let details := MemberDetails.mk "b" "Bob" "b@x" [x03] [x04] None in
  let st' := snd (addOrUpdateMember Demo.provider 1 details st) in
  Org.members (this st') = [0; 1]
  /\ getMember (heap st') (this st') "b" = Some 1
  /\ OrgMember.role (heap st' 1) = Member
  /\ verify Demo.provider (heap st') (this st') 1 = Ok tt.
Proof.
  intros o st details st'.
  destruct (addOrUpdateMember_adds Demo.provider 1 details st st' ("s"%byte :: Demo.key_of 0))
    as [Hm [Hg [[sig Hh] [Hv _]]]].
  - reflexivity.
  - exact (Demo_accepts 0).
  - reflexivity.
  - simpl. intros [H | []]. discriminate H.
  - reflexivity.
  - split; [exact Hm|]. split; [exact Hg|]. split; [now rewrite Hh | exact Hv].
Defined.

(** X20, promoting "a" and changing its email. *)
Lemma addOrUpdateMember_updates_witness :
  let o := Demo.org ("p"%byte :: Demo.key_of 0) (Some ("s"%byte :: Demo.key_of 0)) [0] [] [] in
  let a := Demo.member "a" "a@x" None [VaultAccess.mk "v" false] Member in
  let st := Demo.state (Demo.heap_of [a]) o 1 in
  let details := MemberDetails.mk "a" "Alice" "a@y" [x03] [x04] (Some Admin) in
  let st' := snd (addOrUpdateMember Demo.provider 1 details st) in
  this st' = this st
  /\ OrgMember.email (heap st' 0) = "a@y"
  /\ OrgMember.role (heap st' 0) = Admin
  /\ OrgMember.vaults (heap st' 0) = [VaultAccess.mk "v" false]
  /\ verify Demo.provider (heap st') (this st') 0 = Ok tt.
Proof.
  intros o a st details st'.
  destruct (addOrUpdateMember_updates Demo.provider 1 0 details st st'
              ("s"%byte :: Demo.key_of 0))
    as [Ht [[sig Hh] [Hv _]]].
  - reflexivity.
  - exact (Demo_accepts 0).
  - reflexivity.
  - reflexivity.
  - split; [exact Ht|]. split; [now rewrite Hh|]. split; [now rewrite Hh|].
    split; [now rewrite Hh | exact Hv].
Defined.

(** X21, adding "b" to an organization that has "a". *)
Lemma addOrUpdateMember_keeps_unique_ids_witness :
  let o := Demo.org ("p"%byte :: Demo.key_of 0) (Some ("s"%byte :: Demo.key_of 0)) [0] [] [] in
  let st := Demo.state (Demo.heap_of [Demo.member "a" "a@x" None [] Owner]) o 1 in
  let details := MemberDetails.mk "b" "Bob" "b@x" [x03] [x04] None in
  let st' := snd (addOrUpdateMember Demo.provider 1 details st) in
  unique_ids (heap st') (this st').
Proof.
  intros o st details.
  apply (addOrUpdateMember_keeps_unique_ids Demo.provider 1 details st).
  - repeat constructor. intros [].
  - simpl. intros [H | []]. discriminate H.
Defined.

Section MembershipFailures.
Context {C W : Type}.
Variable provider : CryptoProvider W.

(** X22.  An update is not all-or-nothing: when the provider rejects the
    signing, [addOrUpdateMember] throws the provider's error after the
    existing member has already been given the new name, email, public key,
    [orgSignature] and role, while its signature is still the old one. *)
Theorem addOrUpdateMember_update_fails_late (fresh existing : Ref)
  (details : MemberDetails.t) (st : State C W) (privateKey : bytes) (e : Exn) (w : W) :
  Org.privateKey (this st) = Some privateKey ->
  getMember (heap st) (this st) (MemberDetails.id details) = Some existing ->
  provider_sign provider privateKey
                (signedBytes (assigned_details details (heap st existing)))
                (Org.signingParams (this st)) (world st) = (Throw e, w) ->
  exists st',
    addOrUpdateMember provider fresh details st = (Throw e, st')
    /\ this st' = this st
    /\ heap st' existing
       = OrgMember_assign (MemberDetails.name details) (MemberDetails.email details)
                          (MemberDetails.publicKey details)
                          (MemberDetails.orgSignature details)
                          (match MemberDetails.role details with
                           | Some r => r
                           | None => Member
                           end)
                          (heap st existing)
    /\ OrgMember.signature (heap st' existing) = OrgMember.signature (heap st existing).
Proof.
  intros Hk Hex Hs.
  rewrite (addOrUpdateMember_unlocked provider fresh details st privateKey Hk), Hex.
  cbv zeta. rewrite Hs. eexists. split; [reflexivity|]. cbn [heap this].
  rewrite heap_set_same. repeat split.
Qed.

(** X23.  A failed add adds nothing: when the id is new and the provider
    rejects the signing, [addOrUpdateMember] throws the provider's error,
    the organization is as before, no member object has changed and the id
    still has no member. *)
Theorem addOrUpdateMember_add_fails_clean (fresh : Ref)
  (details : MemberDetails.t) (st : State C W) (privateKey : bytes) (e : Exn) (w : W) :
  Org.privateKey (this st) = Some privateKey ->
  getMember (heap st) (this st) (MemberDetails.id details) = None ->
  ~ In fresh (Org.members (this st)) ->
  provider_sign provider privateKey (signedBytes (new_details details))
                (Org.signingParams (this st)) (world st) = (Throw e, w) ->
  exists st',
    addOrUpdateMember provider fresh details st = (Throw e, st')
    /\ this st' = this st
    /\ Forall (fun m => heap st' m = heap st m) (Org.members (this st))
    /\ getMember (heap st') (this st') (MemberDetails.id details) = None.
Proof.
  intros Hk Hnew Hfresh Hs.
  rewrite (addOrUpdateMember_unlocked provider fresh details st privateKey Hk), Hnew.
  cbv zeta. rewrite Hs. eexists. split; [reflexivity|]. cbn [heap this].
  assert (Hm : forall m, In m (Org.members (this st)) ->
                         heap_set (heap st) fresh (new_details details) m = heap st m).
  { intros m Hm. apply heap_set_other. intros ->. contradiction. }
  split; [reflexivity|]. split.
  - apply Forall_forall. exact Hm.
  - unfold getMember in *. rewrite <- Hnew. apply find_ext_in.
    intros m Hin. now rewrite Hm.
Qed.

End MembershipFailures.

(** X22, updating "a" with a provider that cannot sign. *)
Lemma addOrUpdateMember_update_fails_late_witness :
  let failing :=
    mkCryptoProvider nat
      (fun _ w => (Ok [x0a], S w))
      (fun _ w => (Ok ([x0b], [x0c]), S w))
      (fun _ _ _ w => (Throw (ProviderFailure "cannot sign"), w))
      (fun _ _ _ _ => Ok false) in
  let o := Demo.org [x0c] (Some [x0b]) [0] [] [] in
  let a := Demo.member "a" "a@x" (Some [x05]) [] Member in
  let st := Demo.state (Demo.heap_of [a]) o 1 in
  let details := MemberDetails.mk "a" "Alice" "a@y" [x03] [x04] (Some Owner) in
  exists st',
    addOrUpdateMember failing 1 details st = (Throw (ProviderFailure "cannot sign"), st')
    /\ this st' = this st
    /\ heap st' 0 = OrgMember_assign "Alice" "a@y" [x03] [x04] Owner (heap st 0)
    /\ OrgMember.signature (heap st' 0) = OrgMember.signature (heap st 0).
Proof.
  intros failing o a st details.
  apply (addOrUpdateMember_update_fails_late failing 1 0 details st [x0b]
           (ProviderFailure "cannot sign") 1); reflexivity.
Defined.

(** X23, adding "b" with a provider that cannot sign. *)
Lemma addOrUpdateMember_add_fails_clean_witness :
  let failing :=
    mkCryptoProvider nat
      (fun _ w => (Ok [x0a], S w))
      (fun _ w => (Ok ([x0b], [x0c]), S w))
      (fun _ _ _ w => (Throw (ProviderFailure "cannot sign"), w))
      (fun _ _ _ _ => Ok false) in
  let o := Demo.org [x0c] (Some [x0b]) [0] [] [] in
  let st := Demo.state (Demo.heap_of [Demo.member "a" "a@x" (Some [x05]) [] Member]) o 1 in
  let details := MemberDetails.mk "b" "Bob" "b@x" [x03] [x04] None in
  exists st',
    addOrUpdateMember failing 1 details st = (Throw (ProviderFailure "cannot sign"), st')
    /\ this st' = this st
    /\ Forall (fun m => heap st' m = heap st m) (Org.members (this st))
    /\ getMember (heap st') (this st') "b" = None.
Proof.
  intros failing o st details.
  apply (addOrUpdateMember_add_fails_clean failing 1 details st [x0b]
           (ProviderFailure "cannot sign") 1).
  - reflexivity.
  - reflexivity.
  - simpl. intros [H | []]. discriminate H.
  - reflexivity.
Defined.

(** * Initialization *)

Section Initialization.
Context {C W : Type}.
Variable provider : CryptoProvider W.
Variable container : SharedContainer C W.
Variable marshalKeys : bytes -> bytes -> string.
Variable signOrg : Account.t -> Org.t -> W -> Result bytes * W.

(** X24.  With a provider whose generated key pairs match, an [initialize]
    that returns has left the organization unlocked and has appended the
    account as a member with role Owner, no vaults, the account's id, name,
    email and public key, and a signature that verifies under the new public
    key; when no earlier member had the account's id, [isOwner] is truthy
    for the account. *)
Theorem initialize_makes_owner (fresh : Ref) (account : Account.t) (st st' : State C W) :
  sound_keys provider ->
  getMember (heap st) (this st) (Account.id account) = None ->
  ~ In fresh (Org.members (this st)) ->
  initialize provider container marshalKeys signOrg fresh account st = (Ok tt, st') ->
  Org.members (this st') = Org.members (this st) ++ [fresh]
  /\ (exists signature orgSignature,
        heap st' fresh
        = OrgMember.mk (Account.id account) (Account.name account) (Account.email account)
                       (Account.publicKey account) (Some signature) (Some orgSignature)
                       [] Owner)
  /\ JS.truthy (isOwner (heap st') (this st') (Account.id account)) = true
  /\ verify provider (heap st') (this st') fresh = Ok tt
  /\ Org.privateKey (this st') <> None.
Proof.
  intros Hsound Hnew Hfresh Hrun.
  unfold initialize in Hrun. unfold bind at 1 in Hrun.
  destruct (await_container _ st) as [[[]|e] st0] eqn:E0; [|discriminate].
  assert (H0 : heap st0 = heap st /\ this st0 = this st).
  { unfold await_container in E0.
    destruct (container_updateAccessors _ _ _ _) as [[r c] w].
    injection E0 as _ <-. now split. }
  destruct H0 as [Hh0 Ht0].
  unfold bind at 1 in Hrun.
  destruct (generateKeys provider container marshalKeys st0) as [[[]|e] st1] eqn:G;
    [|discriminate].
  apply generateKeys_Ok in G as [ik [sk [pk [w [w' [Hgen [Hh1 Ht1]]]]]]].
  unfold bind at 1, gets at 1 in Hrun.
  unfold bind at 1, await_provider at 1 in Hrun.
  destruct (signOrg account (this st1) (world st1)) as [[osig|e] w2]; [|discriminate].
  unfold bind at 1, new_OrgMember at 1 in Hrun. cbn [heap this super world] in Hrun.
  unfold bind at 1 in Hrun.
  set (m0 := OrgMember_new (Account.id account) (Account.name account)
               (Account.email account) (Account.publicKey account) osig (Some Owner)) in *.
  match type of Hrun with context [sign provider fresh ?s] => set (st3 := s) in * end.
  assert (Ht3 : this st3 = this st1) by reflexivity.
  assert (H3 : heap st3 fresh = m0) by (subst st3; simpl; apply heap_set_same).
  assert (H3other : forall m, m <> fresh -> heap st3 m = heap st1 m)
    by (intros m Hm; subst st3; simpl; now apply heap_set_other).
  clearbody st3.
  assert (Hk : Org.privateKey (this st3) = Some sk) by (rewrite Ht3, Ht1; reflexivity).
  rewrite (sign_unlocked provider fresh st3 sk Hk) in Hrun.
  destruct (provider_sign provider sk _ _ _) as [[sig|e] w3] eqn:S; [|discriminate].
  unfold modify_this in Hrun. injection Hrun as Hst'.
  assert (Hthis : this st' = Org_push_member fresh (this st1))
    by (rewrite <- Hst'; cbn [this]; now rewrite Ht3).
  assert (Hfresh' : heap st' fresh = OrgMember.with_signature (Some sig) m0).
  { rewrite <- Hst'. cbn [heap]. now rewrite heap_set_same, H3. }
  assert (Hother : forall m, In m (Org.members (this st)) -> heap st' m = heap st m).
  { intros m Hm. assert (m <> fresh) as Hne by (intros ->; contradiction).
    rewrite <- Hst'. cbn [heap].
    rewrite heap_set_other by exact Hne. rewrite H3other by exact Hne.
    now rewrite Hh1, Hh0. }
  assert (Hmembers : Org.members (this st') = Org.members (this st) ++ [fresh]).
  { rewrite Hthis. cbn [Org.members Org_push_member]. now rewrite Ht1, Ht0. }
  assert (Hget : getMember (heap st') (this st') (Account.id account) = Some fresh).
  { unfold getMember. rewrite Hmembers, find_app_last.
    rewrite (find_ext_in _ (fun m => String.eqb (OrgMember.id (heap st m))
                                                (Account.id account))).
    - unfold getMember in Hnew. rewrite Hnew, Hfresh'. simpl.
      now rewrite String.eqb_refl.
    - intros m Hm. now rewrite Hother. }
  split; [exact Hmembers|]. split; [|split; [|split]].
  - exists sig, osig. exact Hfresh'.
  - unfold isOwner. now rewrite Hget, Hfresh'.
  - apply (verify_accepted provider _ _ _ sig).
    + now rewrite Hfresh'.
    + rewrite Hfresh', signedBytes_with_signature, Hthis.
      rewrite H3 in S.
      assert (Hp : Org.signingParams (Org_push_member fresh (this st1))
                   = Org.signingParams (this st3)) by (rewrite Ht3; reflexivity).
      rewrite Hp.
      assert (Hpk : Org.publicKey (Org_push_member fresh (this st1)) = pk)
        by (cbn [Org.publicKey Org_push_member]; now rewrite Ht1).
      rewrite Hpk.
      exact (Hsound _ _ _ _ _ Hgen _ _ _ _ _ S).
  - rewrite Hthis. cbn [Org.privateKey Org_push_member]. rewrite Ht1. discriminate.
Qed.

End Initialization.

(** X24, initializing an empty organization for the account "a". *)
Lemma initialize_makes_owner_witness :
  let signOrg := fun (_ : Account.t) (_ : Org.t) (w : nat) => (Ok [x0e], w) in
  let account := Account.mk "a" "Alice" "a@x" [x01; x02] in
  let st := Demo.state (Demo.heap_of []) (Demo.org [] None [] [] []) 0 in
  let st' := snd (initialize Demo.provider Demo.container Demo.marshalKeys signOrg 0
                             account st) in
  Org.members (this st') = [0]
  /\ OrgMember.role (heap st' 0) = Owner
  /\ JS.truthy (isOwner (heap st') (this st') "a") = true
  /\ verify Demo.provider (heap st') (this st') 0 = Ok tt.
Proof.
  intros signOrg account st st'.
  destruct (initialize_makes_owner Demo.provider Demo.container Demo.marshalKeys signOrg
              0 account st st')
    as [Hm [[sig [osig Hh]] [Ho [Hv _]]]].
  - exact Demo_sound_keys.
  - reflexivity.
  - intros [].
  - reflexivity.
  - split; [exact Hm|]. split; [now rewrite Hh|]. split; [exact Ho | exact Hv].
Defined.

(** * After a rotation *)

Section AfterRotation.
Context {C W : Type}.
Variable provider : CryptoProvider W.
Variable container : SharedContainer C W.
Variable marshalKeys : bytes -> bytes -> string.

(** What a successful [rotateKeys] leaves: a generated key pair in place,
    and on every member a signature made with its private key. *)
Lemma rotateKeys_Ok_signed (force : bool) (st st' : State C W) :
  rotateKeys provider container marshalKeys force st = (Ok tt, st') ->
  exists invitesKey privateKey publicKey w w',
    generateRSAKey provider mkRSAKeyParams w = (Ok (privateKey, publicKey), w')
    /\ this st' = Org.with_publicKey publicKey
                    (Org.with_privateKey (Some privateKey)
                       (Org.with_invitesKey (Some invitesKey) (this st)))
    /\ forall m, In m (Org.members (this st)) ->
         exists signature wa wb,
           heap st' m = OrgMember.with_signature (Some signature) (heap st m)
           /\ provider_sign provider privateKey (signedBytes (heap st m))
                            (Org.signingParams (this st)) wa = (Ok signature, wb).
Proof.
  intros Hrun.
  unfold rotateKeys in Hrun. unfold bind at 1 in Hrun.
  assert (Hpre : exists r, (if negb force then verifyAll provider None else ret tt) st = (r, st)).
  { destruct force; cbn [negb].
    - eexists. reflexivity.
    - pose proof (verifyAll_keeps_state provider None st) as K.
      destruct (verifyAll provider None st) as [r s]. simpl in K. subst s. eauto. }
  destruct Hpre as [r0 Hpre]. rewrite Hpre in Hrun.
  destruct r0 as [[]|e]; [|discriminate].
  unfold bind at 1 in Hrun.
  destruct (generateKeys provider container marshalKeys st) as [[[]|e] st1] eqn:G;
    [|discriminate].
  apply generateKeys_Ok in G as [ik [sk [pk [w [w' [Hgen [Hh1 Ht1]]]]]]].
  revert Hrun. run_method.
  destruct (container_updateAccessors _ _ _ _) as [[[[]|e] c] w2]; [|discriminate].
  match goal with |- context [Promise_all _ ?s] => set (st2 := s) end.
  destruct (Promise_all _ st2) as [[done|e] st3] eqn:P; [|discriminate].
  intros Hrun. injection Hrun as <-.
  assert (Hk : Org.privateKey (this st2) = Some sk) by (subst st2; simpl; now rewrite Ht1).
  destruct (sign_all provider sk _ st2 st3 done Hk P) as [Hthis Hheap].
  exists ik, sk, pk, w, w'. split; [exact Hgen|]. split.
  - rewrite Hthis. subst st2. simpl. exact Ht1.
  - intros m Hm.
    assert (Hm2 : In m (Org.members (this st1))) by (rewrite Ht1; exact Hm).
    destruct (proj1 (Hheap m) Hm2) as [sig [wa [wb [Hx Hs]]]].
    assert (Hh2 : heap st2 m = heap st m) by (subst st2; simpl; now rewrite Hh1).
    assert (Hp2 : Org.signingParams (this st2) = Org.signingParams (this st))
      by (subst st2; simpl; now rewrite Ht1).
    rewrite Hh2, Hp2 in *. exists sig, wa, wb. now split.
Qed.

(** X25.  With a provider whose generated key pairs match, a successful
    [rotateKeys] is followed by a [verifyAll] that returns normally, both
    over the default selection and over all members, the Suspended ones
    included. *)
Theorem verifyAll_after_rotateKeys (force : bool) (st st' : State C W) :
  sound_keys provider ->
  rotateKeys provider container marshalKeys force st = (Ok tt, st') ->
  verifyAll provider None st' = (Ok tt, st')
  /\ verifyAll provider (Some (Org.members (this st'))) st' = (Ok tt, st').
Proof.
  intros Hsound Hrun.
  destruct (rotateKeys_Ok_signed force st st' Hrun)
    as [ik [sk [pk [w [w' [Hgen [Ht Hsig]]]]]]].
  assert (Hall : forall m, In m (Org.members (this st')) ->
                           verify provider (heap st') (this st') m = Ok tt).
  { intros m Hm. rewrite Ht in Hm. simpl in Hm.
    destruct (Hsig m Hm) as [sig [wa [wb [Hx Hs]]]].
    apply (verify_accepted provider _ _ _ sig); [now rewrite Hx|].
    rewrite Hx, signedBytes_with_signature, Ht. simpl.
    exact (Hsound _ _ _ _ _ Hgen _ _ _ _ _ Hs). }
  assert (Hlist : forall l, (forall m, In m l -> In m (Org.members (this st'))) ->
                            verifyAll provider (Some l) st' = (Ok tt, st')).
  { intros l Hl. unfold verifyAll, bind, ret at 1.
    destruct (verify_each provider l st') as [r [-> [[[done ->] _] | [e [m [-> [Hm Hv]]]]]]];
      [reflexivity|].
    rewrite (Hall m (Hl m Hm)) in Hv. discriminate. }
  split.
  - change (verifyAll provider None st')
      with (verifyAll provider (Some (nonSuspended (heap st') (this st'))) st').
    apply Hlist. intros m Hm. now apply in_nonSuspended in Hm as [Hm _].
  - apply Hlist. auto.
Qed.

End AfterRotation.

(** X25, after rotating the keys of an organization of an Owner and a
    Suspended member. *)
Lemma verifyAll_after_rotateKeys_witness :
  let o := Demo.org ("p"%byte :: Demo.key_of 0) (Some ("s"%byte :: Demo.key_of 0))
             [0; 1] [] [] in
  let st := Demo.state (Demo.heap_of [Demo.member "a" "a@x" None [] Owner;
                                      Demo.member "b" "b@x" None [] Suspended]) o 5 in
  let st' := snd (rotateKeys Demo.provider Demo.container Demo.marshalKeys true st) in
  verifyAll Demo.provider None st' = (Ok tt, st')
  /\ verifyAll Demo.provider (Some (Org.members (this st'))) st' = (Ok tt, st').
Proof.
  intros o st st'.
  apply (verifyAll_after_rotateKeys Demo.provider Demo.container Demo.marshalKeys true st st').
  - exact Demo_sound_keys.
  - reflexivity.
Defined.

(** X26.  When member ids are unique, [getMembersForGroup(group)] lists
    exactly the members of the organization whose id the group lists; ids
    without a member record contribute nothing. *)
Theorem getMembersForGroup_iff (h : Heap) (o : Org.t) (g : Group.t) (m : Ref) :
  unique_ids h o ->
  (In m (getMembersForGroup h o g)
   <-> In m (Org.members o) /\ contains g (OrgMember.id (h m))).
Proof.
  intros U. rewrite in_getMembersForGroup. split.
  - intros [ref [Hr G]]. apply getMember_Some in G as [Hm Hid].
    split; [exact Hm|]. exists ref. auto.
  - intros [Hm [ref [Hr Hid]]]. exists ref. split; [exact Hr|].
    rewrite Hid. now apply unique_ids_getMember.
Qed.

(** X26, on a group that lists a member and an unknown id. *)
Lemma getMembersForGroup_iff_witness :
  let h := Demo.heap_of [Demo.member "m" "m@x" None [] Member] in
  let g := Group.mk "g" [MemberRef.mk "ghost"; MemberRef.mk "m"] [] in
  let o := Demo.org [] None [0] [g] [] in
  In 0 (getMembersForGroup h o g) <-> In 0 (Org.members o) /\ contains g (OrgMember.id (h 0)).
Proof.
  intros h g o. apply (getMembersForGroup_iff h o g 0).
  repeat constructor. intros [].
Defined.
